(** * Sledge: the socket client (request/response correlation, status,
      broadcast fan-out) and the hack table of the persistence layer.

    The repository holds two revisions of [SledgeClient]:
    - the single-channel client (one "Synchronize" broadcast), module [Single];
    - the two-channel client ("SynchronizeShared"/"SynchronizeAdmin", plus
      connection status), module [Dual].
    [setupResolverDispatch] and [sendAndAwait] are the same text in both and
    live in the section [Core], parameterised by the token generator. *)

From Stdlib Require Import ZArith QArith Qround String Ascii List HexString Lia.
From stdpp Require Import base gmap strings list.

Local Open Scope Z_scope.
Local Open Scope string_scope.
Local Open Scope list_scope.

(** ** JavaScript primitives used by the client *)

Module JS.

(** ToInt32: what a bitwise operator does to its Number operand. *)
Definition ToInt32 (x : Z) : Z := (x + 2 ^ 31) mod 2 ^ 32 - 2 ^ 31.

(** [Number.prototype.toString(16)] on an integer: lower-case digits, no
    prefix, a leading minus sign for a negative number. *)
Definition Number_toString16 (z : Z) : string :=
  match z with
  | Z0 => "0"
  | Zpos p => HexString.Raw.of_pos p ""
  | Zneg p => String "-" (HexString.Raw.of_pos p "")
  end.

(** [s.slice(-n)]: the last [n] characters, or all of [s] when it is
    shorter. *)
Definition slice_last (n : nat) (s : string) : string :=
  substring (String.length s - n) n s.

(** [Math.floor(r * 256)] for a double [r]; scaling by a power of two is
    exact, so the rational computation is the floating-point one. *)
Definition floor_times_256 (r : Q) : Z := Qfloor (r * 256)%Q.

(** What a call or an event listener did: returned, or threw an [Error]
    with the given message. *)
Inductive completion :=
| Returned
| Threw (message : string).

Definition starts_with_minus (s : string) : bool :=
  match s with
  | String c _ => if ascii_dec c "-" then true else false
  | EmptyString => false
  end.

(** [for (let x of arr) body], with the array reached through the state
    by [arr].  The array iterator compares its index with the length and
    reads the element anew at every step, so it sees what the body did to
    the array in place; an exception leaves the loop at once.  [fuel]
    bounds the number of steps; [None] means the loop is still running. *)
Fixpoint for_of {S A : Type} (arr : S -> list A)
    (body : A -> S -> S * completion) (fuel i : nat) (s : S)
    : option (S * completion) :=
  match fuel with
  | O => None
  | Datatypes.S fuel' =>
      match arr s !! i with
      | None => Some (s, Returned)
      | Some x =>
          match body x s with
          | (s', Returned) => for_of arr body fuel' (Datatypes.S i) s'
          | (s', Threw m) => Some (s', Threw m)
          end
      end
  end.

End JS.

(** ** Wire data *)

Inductive value :=
| VNum (z : Z)
| VStr (s : string)
| VBool (b : bool).

(** An opaque structured record: the caller's payload, a broadcast. *)
Definition payload := list (string * value).

(** [{...data, returnId}] *)
Record Envelope := { env_data : payload; env_returnId : string }.

(** [evts.Response]: the echoed token and the rest of the object. *)
Record Response := { returnId : string; res_body : payload }.

(** A promise created by [sendAndAwait]; its [reject] is never called. *)
Inductive PromiseState :=
| Pending
| Fulfilled (r : Response).

(** Observable effects of the request/response core, in program order. *)
Inductive effect :=
| Generated (token : string)
| Emitted (eventName : string) (e : Envelope)
| Registered (token : string) (promise : nat)
| Settled (promise : nat) (r : Response).

(** The part of a client both revisions share.  A resolver stored in
    [responseResolvers] is the [resolve] function of one promise; promises
    are named by their allocation index in [promises]. *)
Record Core := {
  responseResolvers : gmap string nat;
  promises : list PromiseState;
  trace : list effect
}.

Definition is_settle_of (p : nat) (e : effect) : bool :=
  match e with
  | Settled q _ => Nat.eqb p q
  | _ => false
  end.

(** How many times promise [p] went from pending to settled. *)
Definition settle_count (p : nat) (tr : list effect) : nat :=
  length (List.filter (is_settle_of p) tr).

Section Core.

(** [generateUniqueReturnId], reading the clock ([Date.now()]) and the
    random source ([Math.random()]). *)
Variable generateUniqueReturnId : Z -> Q -> string.

Definition new_core : Core :=
  {| responseResolvers := ∅; promises := []; trace := [] |}.

(** Calling the [resolve] function of promise [p]: settles it when it is
    pending, does nothing otherwise. *)
Definition resolve (p : nat) (r : Response) (k : Core) : Core :=
  match promises k !! p with
  | Some Pending =>
      {| responseResolvers := responseResolvers k;
         promises := <[p := Fulfilled r]> (promises k);
         trace := trace k ++ [Settled p r] |}
  | _ => k
  end.

(** The listener [setupResolverDispatch] installs for a response kind. *)
Definition on_response (data : Response) (k : Core) : Core * JS.completion :=
  match responseResolvers k !! returnId data with
  | Some resolver =>
      let k1 := resolve resolver data k in
      ({| responseResolvers := delete (returnId data) (responseResolvers k1);
          promises := promises k1;
          trace := trace k1 |}, JS.Returned)
  | None =>
      (k, JS.Threw ("Got response with unknown returnId: " +:+ returnId data))
  end.

Definition emit (eventName : string) (e : Envelope) (k : Core) : Core :=
  {| responseResolvers := responseResolvers k;
     promises := promises k;
     trace := trace k ++ [Emitted eventName e] |}.

(** [new Promise(executor)] with the executor of [sendAndAwait], which
    runs at once and stores [resolve] under [token]. *)
Definition new_promise_registering (token : string) (k : Core) : Core * nat :=
  let p := length (promises k) in
  ({| responseResolvers := <[token := p]> (responseResolvers k);
      promises := promises k ++ [Pending];
      trace := trace k ++ [Registered token p] |}, p).

Definition sendAndAwait (now : Z) (rnd : Q) (eventName : string)
    (data : payload) (k : Core) : Core * nat :=
  let token := generateUniqueReturnId now rnd in
  let k0 := {| responseResolvers := responseResolvers k;
               promises := promises k;
               trace := trace k ++ [Generated token] |} in
  let k1 := emit eventName {| env_data := data; env_returnId := token |} k0 in
  new_promise_registering token k1.

(** What can happen to the core: a send (from the application or from a
    subscriber callback) or an inbound response. *)
Inductive input :=
| DoSend (now : Z) (rnd : Q) (eventName : string) (data : payload)
| GotResponse (data : Response).

Definition step (k : Core) (i : input) : Core :=
  match i with
  | DoSend now rnd n d => fst (sendAndAwait now rnd n d k)
  | GotResponse d => fst (on_response d k)
  end.

Definition run (k : Core) (ins : list input) : Core := fold_left step ins k.

Definition reachable (k : Core) : Prop := ∃ ins, k = run new_core ins.

End Core.

(** A subscriber callback is a JavaScript function; the client only ever
    compares functions by identity, so a callback is named by a number. *)
Definition callback := nat.

Bind Scope nat_scope with callback.

(** ** The single-channel client *)

Module Single.

(** [(Date.now() & ~0xFF) + Math.floor(Math.random()*256)], in base 16. *)
Definition generateUniqueReturnId (now : Z) (rnd : Q) : string :=
  let entropy :=
    Z.land (JS.ToInt32 now) (Z.lnot 255) + JS.floor_times_256 rnd in
  JS.Number_toString16 entropy.

Record SledgeClient := {
  core : Core;
  (** A JavaScript array; [None] is a hole left by [delete]. *)
  synchronizeSubscribers : list (option callback);
  (** Every invocation of a subscriber, in order, with its argument. *)
  calls : list (callback * payload)
}.

Definition new : SledgeClient :=
  {| core := new_core; synchronizeSubscribers := []; calls := [] |}.

Definition with_core (k : Core) (c : SledgeClient) : SledgeClient :=
  {| core := k;
     synchronizeSubscribers := synchronizeSubscribers c;
     calls := calls c |}.

Definition with_subscribers (l : list (option callback)) (c : SledgeClient)
    : SledgeClient :=
  {| core := core c; synchronizeSubscribers := l; calls := calls c |}.

Definition sendAndAwait (now : Z) (rnd : Q) (eventName : string)
    (data : payload) (c : SledgeClient) : SledgeClient * nat :=
  let (k, p) :=
    sendAndAwait generateUniqueReturnId now rnd eventName data (core c) in
  (with_core k c, p).

Definition sendAddHack now rnd data := sendAndAwait now rnd "AddHack" data.
Definition sendAddJudge now rnd data := sendAndAwait now rnd "AddJudge" data.
Definition sendAddSuperlative now rnd data :=
  sendAndAwait now rnd "AddSuperlative" data.
Definition sendAuthenticate now rnd data :=
  sendAndAwait now rnd "Authenticate" data.
Definition sendLogin now rnd data := sendAndAwait now rnd "Login" data.
Definition sendRateHack now rnd data := sendAndAwait now rnd "RateHack" data.
Definition sendRankSuperlative now rnd data :=
  sendAndAwait now rnd "RankSuperlative" data.
Definition sendSetSynchronize now rnd data :=
  sendAndAwait now rnd "SetSynchronize" data.

(** The send methods of the facade, each with its outbound event name. *)
Definition send_methods
    : list (string * (Z -> Q -> payload -> SledgeClient -> SledgeClient * nat)) :=
  [ ("AddHack", sendAddHack); ("AddJudge", sendAddJudge);
    ("AddSuperlative", sendAddSuperlative);
    ("Authenticate", sendAuthenticate); ("Login", sendLogin);
    ("RateHack", sendRateHack); ("RankSuperlative", sendRankSuperlative);
    ("SetSynchronize", sendSetSynchronize) ].

(** The closure [() => { delete this.synchronizeSubscribers[i]; }]. *)
Inductive unsubscribe := DeleteSlot (i : nat).

Definition subscribeSynchronize (notify : callback) (c : SledgeClient)
    : SledgeClient * unsubscribe :=
  let i := length (synchronizeSubscribers c) in
  (with_subscribers (synchronizeSubscribers c ++ [Some notify]) c,
   DeleteSlot i).

(** Calling the closure; [delete] of an index past the end does nothing. *)
Definition call_unsubscribe (u : unsubscribe) (c : SledgeClient)
    : SledgeClient :=
  match u with
  | DeleteSlot i =>
      with_subscribers (<[i := None]> (synchronizeSubscribers c)) c
  end.

(** What a subscriber does with the client while it runs. *)
Inductive action :=
| CallSubscribe (notify : callback)
| CallUnsubscribe (u : unsubscribe)
| CallSend (now : Z) (rnd : Q) (eventName : string) (data : payload).

(** The body of a callback: client calls, then a normal return or an
    exception. *)
Record behaviour := { does : list action; raises : option string }.

Definition perform (c : SledgeClient) (a : action) : SledgeClient :=
  match a with
  | CallSubscribe notify => fst (subscribeSynchronize notify c)
  | CallUnsubscribe u => call_unsubscribe u c
  | CallSend now rnd n d => fst (sendAndAwait now rnd n d c)
  end.

Definition finish (b : behaviour) : JS.completion :=
  match raises b with
  | Some m => JS.Threw m
  | None => JS.Returned
  end.

Definition is_send (a : action) : bool :=
  match a with
  | CallSend _ _ _ _ => true
  | _ => false
  end.

(** A subscriber that returns normally and, while it runs, calls neither a
    subscribe method nor an unsubscribe closure (it may send requests). *)
Definition quiet (b : behaviour) : bool :=
  match raises b with
  | None => forallb is_send (does b)
  | Some _ => false
  end.

Section Listeners.

Variable behave : callback -> behaviour.

(** [notify(e)] *)
Definition invoke (notify : callback) (e : payload) (c : SledgeClient)
    : SledgeClient * JS.completion :=
  let c1 := {| core := core c;
               synchronizeSubscribers := synchronizeSubscribers c;
               calls := calls c ++ [(notify, e)] |} in
  (fold_left perform (does (behave notify)) c1, finish (behave notify)).

(** [if (notify) notify(e);] *)
Definition notify_if_present (e : payload) (slot : option callback)
    (c : SledgeClient) : SledgeClient * JS.completion :=
  match slot with
  | Some notify => invoke notify e c
  | None => (c, JS.Returned)
  end.

(** The "Synchronize" listener. *)
Definition on_Synchronize (fuel : nat) (e : payload) (c : SledgeClient)
    : option (SledgeClient * JS.completion) :=
  JS.for_of synchronizeSubscribers (notify_if_present e) fuel 0%nat c.

(** A listener installed by [setupResolverDispatch]. *)
Definition on_response (data : Response) (c : SledgeClient)
    : SledgeClient * JS.completion :=
  let (k, r) := on_response data (core c) in (with_core k c, r).

End Listeners.

End Single.

(** ** The two-channel client, with connection status *)

Module Dual.

Inductive SledgeStatus :=
| Connecting
| Connected
| Reconnecting
| Disconnected.

(** The values of the [const enum]. *)
Definition status_value (s : SledgeStatus) : string :=
  match s with
  | Connecting => "SLEDGECLIENT_CONNECTING"
  | Connected => "SLEDGECLIENT_CONNECTED"
  | Reconnecting => "SLEDGECLIENT_RECONNECTING"
  | Disconnected => "SLEDGECLIENT_DISCONNECTED"
  end.

(** An invocation of a subscriber, with its argument. *)
Inductive call :=
| SyncCall (notify : callback) (e : payload)
| StatusCall (notify : callback) (s : SledgeStatus).

Record SledgeClient := {
  core : Core;
  status : SledgeStatus;
  (** These two fields are assigned once; their arrays only grow. *)
  syncSharedSubs : list callback;
  syncAdminSubs : list callback;
  (** [statusSubscribers] is reassigned by the unsubscribe closure, while
      a running [dispatchStatus] still holds the array it started on: the
      field is a reference into [arrays], the arrays allocated so far. *)
  statusSubscribers : nat;
  arrays : list (list callback);
  calls : list call
}.

Definition new : SledgeClient :=
  {| core := new_core; status := Connecting;
     syncSharedSubs := []; syncAdminSubs := [];
     statusSubscribers := 0; arrays := [[]]; calls := [] |}.

Definition array_at (a : nat) (c : SledgeClient) : list callback :=
  default [] (arrays c !! a).

(** The array [this.statusSubscribers] points to now. *)
Definition status_subscribers (c : SledgeClient) : list callback :=
  array_at (statusSubscribers c) c.

Definition with_core (k : Core) (c : SledgeClient) : SledgeClient :=
  {| core := k; status := status c;
     syncSharedSubs := syncSharedSubs c; syncAdminSubs := syncAdminSubs c;
     statusSubscribers := statusSubscribers c; arrays := arrays c;
     calls := calls c |}.

Definition with_status (s : SledgeStatus) (c : SledgeClient) : SledgeClient :=
  {| core := core c; status := s;
     syncSharedSubs := syncSharedSubs c; syncAdminSubs := syncAdminSubs c;
     statusSubscribers := statusSubscribers c; arrays := arrays c;
     calls := calls c |}.

Definition with_calls (l : list call) (c : SledgeClient) : SledgeClient :=
  {| core := core c; status := status c;
     syncSharedSubs := syncSharedSubs c; syncAdminSubs := syncAdminSubs c;
     statusSubscribers := statusSubscribers c; arrays := arrays c;
     calls := l |}.

(** The closure [() => { this.statusSubscribers =
    this.statusSubscribers.filter(n => n!==notify); }]. *)
Inductive unsubscribe := FilterStatus (notify : callback).

(** What a subscribe method returns. *)
Inductive returned :=
| Undefined
| Capability (u : unsubscribe).

Definition subscribeStatus (notify : callback) (c : SledgeClient)
    : SledgeClient * returned :=
  ({| core := core c; status := status c;
      syncSharedSubs := syncSharedSubs c; syncAdminSubs := syncAdminSubs c;
      statusSubscribers := statusSubscribers c;
      arrays :=
        alter (λ l : list callback, (l ++ [notify])%list)
          (statusSubscribers c) (arrays c);
      calls := calls c |},
   Capability (FilterStatus notify)).

Definition subscribeSyncAdmin (notify : callback) (c : SledgeClient)
    : SledgeClient * returned :=
  ({| core := core c; status := status c;
      syncSharedSubs := syncSharedSubs c;
      syncAdminSubs := syncAdminSubs c ++ [notify];
      statusSubscribers := statusSubscribers c; arrays := arrays c;
      calls := calls c |},
   Undefined).

Definition subscribeSyncShared (notify : callback) (c : SledgeClient)
    : SledgeClient * returned :=
  ({| core := core c; status := status c;
      syncSharedSubs := syncSharedSubs c ++ [notify];
      syncAdminSubs := syncAdminSubs c;
      statusSubscribers := statusSubscribers c; arrays := arrays c;
      calls := calls c |},
   Undefined).

(** Calling the closure: [filter] builds a new array and the field is
    pointed at it; the old array is left as it was. *)
Definition call_unsubscribe (u : unsubscribe) (c : SledgeClient)
    : SledgeClient :=
  match u with
  | FilterStatus notify =>
      {| core := core c; status := status c;
         syncSharedSubs := syncSharedSubs c; syncAdminSubs := syncAdminSubs c;
         statusSubscribers := length (arrays c);
         arrays :=
           arrays c ++ [filter (λ n, n ≠ notify) (status_subscribers c)];
         calls := calls c |}
  end.

(** What a subscriber does with the client while it runs. *)
Inductive action :=
| CallSubscribeStatus (notify : callback)
| CallSubscribeSyncAdmin (notify : callback)
| CallSubscribeSyncShared (notify : callback)
| CallUnsubscribe (u : unsubscribe)
| CallSend (now : Z) (rnd : Q) (eventName : string) (data : payload).

Record behaviour := { does : list action; raises : option string }.

Definition finish (b : behaviour) : JS.completion :=
  match raises b with
  | Some m => JS.Threw m
  | None => JS.Returned
  end.

Definition is_send (a : action) : bool :=
  match a with
  | CallSend _ _ _ _ => true
  | _ => false
  end.

(** A subscriber that returns normally and, while it runs, calls neither a
    subscribe method nor an unsubscribe closure (it may send requests). *)
Definition quiet (b : behaviour) : bool :=
  match raises b with
  | None => forallb is_send (does b)
  | Some _ => false
  end.

Section Client.

(** [Number.prototype.toString(16)] on a fraction: ECMAScript leaves its
    digits to the implementation for a radix other than 10. *)
Variable random_toString16 : Q -> string.

(** [Date.now().toString(16).slice(-6) +
     Math.random().toString(16).slice(-6)] *)
Definition generateUniqueReturnId (now : Z) (rnd : Q) : string :=
  JS.slice_last 6 (JS.Number_toString16 now)
  +:+ JS.slice_last 6 (random_toString16 rnd).

Definition sendAndAwait (now : Z) (rnd : Q) (eventName : string)
    (data : payload) (c : SledgeClient) : SledgeClient * nat :=
  let (k, p) :=
    sendAndAwait generateUniqueReturnId now rnd eventName data (core c) in
  (with_core k c, p).

Definition sendAddRow now rnd data := sendAndAwait now rnd "AddRow" data.
Definition sendAuthenticate now rnd data :=
  sendAndAwait now rnd "Authenticate" data.
Definition sendModifyRow now rnd data :=
  sendAndAwait now rnd "ModifyRow" data.
Definition sendRateHack now rnd data := sendAndAwait now rnd "RateHack" data.
Definition sendRankSuperlative now rnd data :=
  sendAndAwait now rnd "RankSuperlative" data.
Definition sendSetJudgeHackPriority now rnd data :=
  sendAndAwait now rnd "SetJudgeHackPriority" data.
Definition sendSetSynchronizeAdmin now rnd data :=
  sendAndAwait now rnd "SetSynchronizeAdmin" data.
Definition sendSetSynchronizeShared now rnd data :=
  sendAndAwait now rnd "SetSynchronizeShared" data.

(** The send methods of the facade, each with its outbound event name. *)
Definition send_methods
    : list (string * (Z -> Q -> payload -> SledgeClient -> SledgeClient * nat)) :=
  [ ("AddRow", sendAddRow); ("Authenticate", sendAuthenticate);
    ("ModifyRow", sendModifyRow); ("RateHack", sendRateHack);
    ("RankSuperlative", sendRankSuperlative);
    ("SetJudgeHackPriority", sendSetJudgeHackPriority);
    ("SetSynchronizeAdmin", sendSetSynchronizeAdmin);
    ("SetSynchronizeShared", sendSetSynchronizeShared) ].

Definition perform (c : SledgeClient) (a : action) : SledgeClient :=
  match a with
  | CallSubscribeStatus notify => fst (subscribeStatus notify c)
  | CallSubscribeSyncAdmin notify => fst (subscribeSyncAdmin notify c)
  | CallSubscribeSyncShared notify => fst (subscribeSyncShared notify c)
  | CallUnsubscribe u => call_unsubscribe u c
  | CallSend now rnd n d => fst (sendAndAwait now rnd n d c)
  end.

Variable behave : callback -> behaviour.

(** Calling subscriber [notify]; [entry] is the invocation, logged. *)
Definition invoke (notify : callback) (entry : call) (c : SledgeClient)
    : SledgeClient * JS.completion :=
  (fold_left perform (does (behave notify))
     (with_calls (calls c ++ [entry]) c),
   finish (behave notify)).

(** The "SynchronizeShared" listener. *)
Definition on_SynchronizeShared (fuel : nat) (e : payload)
    (c : SledgeClient) : option (SledgeClient * JS.completion) :=
  JS.for_of syncSharedSubs
    (λ notify c, invoke notify (SyncCall notify e) c) fuel 0%nat c.

(** The "SynchronizeAdmin" listener. *)
Definition on_SynchronizeAdmin (fuel : nat) (e : payload)
    (c : SledgeClient) : option (SledgeClient * JS.completion) :=
  JS.for_of syncAdminSubs
    (λ notify c, invoke notify (SyncCall notify e) c) fuel 0%nat c.

(** The loop evaluates [this.statusSubscribers] once, to get its
    iterator, and [this.status] at every call. *)
Definition dispatchStatus (fuel : nat) (c : SledgeClient)
    : option (SledgeClient * JS.completion) :=
  let a := statusSubscribers c in
  JS.for_of (array_at a)
    (λ d c, invoke d (StatusCall d (status c)) c) fuel 0%nat c.

Definition on_connect (fuel : nat) (c : SledgeClient) :=
  dispatchStatus fuel (with_status Connected c).

Definition on_reconnecting (fuel : nat) (c : SledgeClient) :=
  dispatchStatus fuel (with_status Reconnecting c).

Definition on_reconnect_failed (fuel : nat) (c : SledgeClient) :=
  dispatchStatus fuel (with_status Disconnected c).

(** The three lifecycle listeners the constructor installs, each with its
    transport event and the status it assigns. *)
Definition lifecycle_listeners
    : list (string * SledgeStatus
            * (nat → SledgeClient → option (SledgeClient * JS.completion))) :=
  [ ("connect", Connected, on_connect);
    ("reconnecting", Reconnecting, on_reconnecting);
    ("reconnect_failed", Disconnected, on_reconnect_failed) ].

(** A listener installed by [setupResolverDispatch]. *)
Definition on_response (data : Response) (c : SledgeClient)
    : SledgeClient * JS.completion :=
  let (k, r) := on_response data (core c) in (with_core k c, r).

End Client.

End Dual.

(** ** The persistence layer: the hack and judge tables *)

Module Persistence.

Inductive sqlvalue :=
| SqlText (s : string)
| SqlInteger (z : Z)
| SqlNull.

Record Hack := {
  hack_id : option Z;
  hack_name : string;
  hack_description : string;
  hack_location : Z
}.

Record Judge := {
  judge_id : option Z;
  judge_name : string;
  judge_email : string
}.

(** A row of [hacks]: id, name, description, location. *)
Record HackRow := {
  row_id : Z;
  row_name : string;
  row_description : string;
  row_location : Z
}.

(** The tables [initDatabase] creates, as far as these methods go. *)
Record Database := {
  hacks : list HackRow;
  judges : list (Z * string * string)
}.

Record SuperlativePlacement := {
  placement_id : option Z;
  judgeId : Z;
  superlativeId : Z;
  firstChoiceId : Z;
  secondChoiceId : Z
}.

(** A prepared statement of the driver: its text and the number of
    anonymous placeholders the text declares. *)
Record Statement := { source : string; parameters : nat }.

(** The anonymous placeholders of a statement text, counted as its [?]
    characters.  The statement texts of this file have no [?] inside a
    string literal and no numbered parameter, where SQLite would count
    otherwise. *)
Fixpoint count_placeholders (sql : string) : nat :=
  match sql with
  | EmptyString => 0%nat
  | String c rest =>
      ((if ascii_dec c "?" then 1 else 0) + count_placeholders rest)%nat
  end.

(** [this.sql.prepare(text)] *)
Definition prepare (sql : string) : Statement :=
  {| source := sql; parameters := count_placeholders sql |}.

Section Engine.

(** The SQL engine stepping a statement whose placeholders are all
    bound. *)
Variable execute :
  string -> list sqlvalue -> Database -> Database * JS.completion.

(** [stmt.run(array)]: the driver binds the array to the placeholders by
    position and refuses, with a [RangeError] and before the statement
    is stepped, an array of another length. *)
Definition run (stmt : Statement) (bound : list sqlvalue) (db : Database)
    : Database * JS.completion :=
  if (length bound <? parameters stmt)%nat then
    (db, JS.Threw "Too few parameter values were provided")
  else if (parameters stmt <? length bound)%nat then
    (db, JS.Threw "Too many parameter values were provided")
  else execute (source stmt) bound db.

Definition addHack_sql : string :=
  "INSERT INTO hacks(name, description, location)" +:+ "VALUES (?,?,?);".

Definition addHack_bound (hack : Hack) : list sqlvalue :=
  [SqlText (hack_name hack); SqlText (hack_description hack)].

Definition addHack (hack : Hack) (db : Database)
    : Database * JS.completion :=
  let stmt := prepare addHack_sql in
  run stmt (addHack_bound hack) db.

Definition addJudge_sql : string :=
  "INSERT INTO judges (name, email)" +:+ "VALUES (?, ?);".

Definition addJudge (judge : Judge) (db : Database)
    : Database * JS.completion :=
  let stmt := prepare addJudge_sql in
  run stmt [SqlText (judge_name judge); SqlText (judge_email judge)] db.

Definition addSueprlativePlacement_sql : string :=
  "INSERT INTO superlative_placements"
  +:+ "(id, judge_id, superlative_id, first_choice, second_choice)"
  +:+ "VALUES ("
  +:+ "(SELECT id FROM superlative_placements WHERE judge_id=? AND superlative_id = ?),"
  +:+ "?, ?, ?, ?);".

Definition addSueprlativePlacement (placement : SuperlativePlacement)
    (db : Database) : Database * JS.completion :=
  let stmt := prepare addSueprlativePlacement_sql in
  run stmt
    [SqlInteger (judgeId placement); SqlInteger (superlativeId placement);
     SqlInteger (judgeId placement); SqlInteger (superlativeId placement);
     SqlInteger (firstChoiceId placement);
     SqlInteger (secondChoiceId placement)] db.

End Engine.

End Persistence.

(** ** The judging screen: [JudgeApp] and [ProjectList] *)

Module JudgeApp.

Local Open Scope Z_scope.

(** A hack identifier as the component handles it: a number, [null] or
    [undefined]. *)
Inductive jsid :=
| Null
| Undefined
| Num (z : Z).

(** [if (v)]: [null], [undefined] and [0] are falsy. *)
Definition truthy (v : jsid) : bool :=
  match v with
  | Num z => negb (z =? 0)
  | _ => false
  end.

(** [arr[i]] for a number [i]: [undefined] outside the array. *)
Definition array_get (arr : list Z) (i : Z) : jsid :=
  if 0 <=? i then
    match arr !! Z.to_nat i with
    | Some x => Num x
    | None => Undefined
    end
  else Undefined.

Record Hack := {
  id : Z;
  name : string;
  description : string;
  location : value
}.

(** The props the methods below read. *)
Record Props := {
  hackOrdering : list Z;
  hackPositions : gmap Z Z;
  hacks : list Hack;
  myJudgeId : Z
}.

Record State := {
  currentHackId : Z;
  listViewActive : bool
}.

(** [this.setState({currentHackId: h})]: the other field is kept. *)
Definition set_currentHackId (h : Z) (s : State) : State :=
  {| currentHackId := h; listViewActive := listViewActive s |}.

(** What [updateStateFromProps] returns: the state object it was given,
    or a new object holding only [currentHackId]. *)
Inductive updated :=
| SameObject
| NewObject (currentHackId : Z).

Definition updateStateFromProps (state : option State) (props : Props)
    : updated :=
  let reset :=
    match hackOrdering props with
    | h :: _ => NewObject h
    | [] => NewObject (-1)
    end in
  match state with
  | None => reset
  | Some s => if currentHackId s <? 0 then reset else SameObject
  end.

(** The constructor: [updateStateFromProps(null, props)], then
    [listViewActive = false]. *)
Definition constructor (props : Props) : State :=
  match updateStateFromProps None props with
  | NewObject h => {| currentHackId := h; listViewActive := false |}
  | SameObject => {| currentHackId := -1; listViewActive := false |}
  end.

Definition componentWillReceiveProps (nextProps : Props) (s : State) : State :=
  match updateStateFromProps (Some s) nextProps with
  | SameObject => s
  | NewObject h => set_currentHackId h s
  end.

Definition no_hack : Hack :=
  {| id := 0; name := "[No Hacks Found]";
     description := "[No Hacks Found]"; location := VStr "?" |}.

(** [None] stands for [undefined]. *)
Definition getCurrentHack (props : Props) (s : State) : option Hack :=
  if currentHackId s <? 0 then Some no_hack
  else hacks props !! Z.to_nat (currentHackId s).

(** With [pos] undefined, [pos+1] is NaN, the comparison is false and the
    array is read at NaN. *)
Definition getNextHackId (props : Props) (s : State) : jsid :=
  match hackPositions props !! currentHackId s with
  | None => Undefined
  | Some pos =>
      if Z.of_nat (length (hackOrdering props)) <=? pos + 1 then Null
      else array_get (hackOrdering props) (pos + 1)
  end.

Definition getPrevHackId (props : Props) (s : State) : jsid :=
  match hackPositions props !! currentHackId s with
  | None => Undefined
  | Some pos =>
      if pos - 1 <? 0 then Null
      else array_get (hackOrdering props) (pos - 1)
  end.

Record Toolbar := {
  onPrev : State → State;
  onList : State → State;
  onNext : State → State;
  last : bool;
  first : bool
}.

Definition go_to (target : jsid) (s : State) : State :=
  match target with
  | Num h => if truthy target then set_currentHackId h s else s
  | _ => s
  end.

(** The handlers close over the identifiers computed when the toolbar is
    rendered in state [s]; they act on the state at the time of the
    click. *)
Definition getToolbarProps (props : Props) (s : State) : Toolbar :=
  let prevHackId := getPrevHackId props s in
  let nextHackId := getNextHackId props s in
  let pos := hackPositions props !! currentHackId s in
  {| onPrev := go_to prevHackId;
     onList := λ t, {| currentHackId := currentHackId t;
                       listViewActive := negb (listViewActive t) |};
     onNext := go_to nextHackId;
     last := match pos with
             | Some p => p =? Z.of_nat (length (hackOrdering props)) - 1
             | None => false
             end;
     first := match pos with
              | Some p => p =? 0
              | None => false
              end |}.

(** The request [getRatingBoxProps().onSubmit(r)] hands to
    [sledge.sendRateHack]. *)
Definition rating_request (props : Props) (s : State) (r : Z) : payload :=
  [("judgeId", VNum (myJudgeId props));
   ("hackId", VNum (currentHackId s));
   ("rating", VNum r)].

Definition submit_rating (props : Props) (s : State) (r : Z) (now : Z)
    (rnd : Q) (sledge : Single.SledgeClient) : Single.SledgeClient * nat :=
  Single.sendRateHack now rnd (rating_request props s r) sledge.

(** [ProjectListElement]'s props: the text shown and the click handler. *)
Record ProjectListElement := {
  projectName : string;
  updateHackId : State → State
}.

(** [getProjectListProps().setHackId] *)
Definition setHackId (hackId : Z) (s : State) : State :=
  {| currentHackId := hackId; listViewActive := false |}.

(** [ProjectList.createListItem] *)
Definition createListItem (hack : Hack) : ProjectListElement :=
  {| projectName := name hack; updateHackId := setHackId (id hack) |}.

(** The children of the list [ProjectList.render] builds. *)
Definition render_list (props : Props) : list ProjectListElement :=
  createListItem <$> hacks props.

(** [hackPositions] maps every hack of [hackOrdering] to its index. *)
Definition positions_agree (props : Props) : Prop :=
  ∀ i h, hackOrdering props !! i = Some h →
         hackPositions props !! h = Some (Z.of_nat i).

End JudgeApp.

(** ** Notions used to state the properties *)

(** The handle stored by the most recent registration of [token]. *)
Fixpoint last_registered (token : string) (tr : list effect) : option nat :=
  match tr with
  | [] => None
  | e :: tr' =>
      match last_registered token tr' with
      | Some p => Some p
      | None =>
          match e with
          | Registered t p => if String.eqb token t then Some p else None
          | _ => None
          end
      end
  end.

(** What holds of the core in every state the client can be in. *)
Record wf (k : Core) : Prop := {
  wf_pending : ∀ t p,
    responseResolvers k !! t = Some p → promises k !! p = Some Pending;
  wf_inj : ∀ t1 t2 p,
    responseResolvers k !! t1 = Some p →
    responseResolvers k !! t2 = Some p → t1 = t2;
  wf_count : ∀ p,
    settle_count p (trace k) =
    match promises k !! p with Some (Fulfilled _) => 1%nat | _ => 0%nat end;
  wf_last : ∀ t p,
    responseResolvers k !! t = Some p → last_registered t (trace k) = Some p
}.

Definition is_emitted (e : effect) : bool :=
  match e with Emitted _ _ => true | _ => false end.

Definition is_registered (e : effect) : bool :=
  match e with Registered _ _ => true | _ => false end.

Definition is_generated (e : effect) : bool :=
  match e with Generated _ => true | _ => false end.

(** Position of the first effect of a kind. *)
Fixpoint first_index (f : effect → bool) (tr : list effect) : option nat :=
  match tr with
  | [] => None
  | e :: tr' => if f e then Some 0%nat else S <$> first_index f tr'
  end.

(** The first [f] effect comes before the first [g] effect. *)
Definition precedes (f g : effect → bool) (tr : list effect) : Prop :=
  ∃ i j, first_index f tr = Some i ∧ first_index g tr = Some j ∧ (i < j)%nat.


(** What the invocation log gains at one slot of the subscriber array. *)
Definition Single_entry (e : payload) (slot : option callback)
    : list (callback * payload) :=
  match slot with
  | Some notify => [(notify, e)]
  | None => []
  end.

(** The scenario of the specification: a RateHack request and the
    response that answers it. *)
Definition scenario_now : Z := 1700000000000.

Definition scenario_rnd : Q := 1 # 2.

Definition scenario_request : payload :=
  [("judgeId", VNum 3); ("hackId", VNum 7); ("rating", VNum 15)].

Definition scenario_core : Core :=
  run Single.generateUniqueReturnId new_core
    [DoSend scenario_now scenario_rnd "RateHack" scenario_request].

Definition scenario_response : Response :=
  {| returnId := Single.generateUniqueReturnId scenario_now scenario_rnd;
     res_body := [("success", VBool true)] |}.

(** A broadcast and subscribers for the examples. *)
Definition scenario_broadcast : payload := [("hacks", VNum 12)].

Definition single_three : Single.SledgeClient :=
  fst (Single.subscribeSynchronize 3
         (fst (Single.subscribeSynchronize 2
                 (fst (Single.subscribeSynchronize 1 Single.new))))).

(** Subscriber 2 sends a request when called; the others just return. *)
Definition single_polite (n : callback) : Single.behaviour :=
  if Nat.eqb n 2 then
    {| Single.does :=
         [Single.CallSend scenario_now scenario_rnd "RateHack"
            scenario_request];
       Single.raises := None |}
  else {| Single.does := []; Single.raises := None |}.

(** Subscriber 1 throws. *)
Definition single_first_throws (n : callback) : Single.behaviour :=
  if Nat.eqb n 1 then
    {| Single.does := []; Single.raises := Some "boom" |}
  else {| Single.does := []; Single.raises := None |}.

(** Subscriber 1 calls the unsubscribe closure of subscriber 2 (slot 1). *)
Definition single_first_removes_second (n : callback) : Single.behaviour :=
  if Nat.eqb n 1 then
    {| Single.does := [Single.CallUnsubscribe (Single.DeleteSlot 1)];
       Single.raises := None |}
  else {| Single.does := []; Single.raises := None |}.

Definition dual_two_status : Dual.SledgeClient :=
  fst (Dual.subscribeStatus 2 (fst (Dual.subscribeStatus 1 Dual.new))).

Definition dual_three_shared : Dual.SledgeClient :=
  fst (Dual.subscribeSyncShared 3
         (fst (Dual.subscribeSyncShared 2
                 (fst (Dual.subscribeSyncShared 1 Dual.new))))).

Definition dual_polite (n : callback) : Dual.behaviour :=
  if Nat.eqb n 2 then
    {| Dual.does :=
         [Dual.CallSend scenario_now scenario_rnd "RateHack"
            scenario_request];
       Dual.raises := None |}
  else {| Dual.does := []; Dual.raises := None |}.

(** Status subscriber 1 calls the unsubscribe closure of subscriber 2. *)
Definition dual_first_removes_second (n : callback) : Dual.behaviour :=
  if Nat.eqb n 1 then
    {| Dual.does := [Dual.CallUnsubscribe (Dual.FilterStatus 2)];
       Dual.raises := None |}
  else {| Dual.does := []; Dual.raises := None |}.

(** How a pass that invoked the subscribers [ns], in that order, ended.
    When the listener returned, each of them had returned normally; when it
    threw [m], the last one invoked had thrown [m] and the ones before it
    had returned normally.  [raises] tells what a subscriber throws. *)
Definition pass_outcome (raises : callback → option string)
    (ns : list callback) (r : JS.completion) : Prop :=
  match r with
  | JS.Returned => Forall (λ n, raises n = None) ns
  | JS.Threw m =>
      ∃ pre n, ns = pre ++ [n] ∧ Forall (λ n, raises n = None) pre
               ∧ raises n = Some m
  end.

(** Subscriber 2 throws. *)
Definition single_second_throws (n : callback) : Single.behaviour :=
  if Nat.eqb n 2 then
    {| Single.does := []; Single.raises := Some "boom" |}
  else {| Single.does := []; Single.raises := None |}.

Definition dual_second_throws (n : callback) : Dual.behaviour :=
  if Nat.eqb n 2 then
    {| Dual.does := []; Dual.raises := Some "boom" |}
  else {| Dual.does := []; Dual.raises := None |}.

Definition dual_three_status : Dual.SledgeClient :=
  fst (Dual.subscribeStatus 3
         (fst (Dual.subscribeStatus 2
                 (fst (Dual.subscribeStatus 1 Dual.new))))).

(** Some rendering of fractions, for the examples. *)
Definition hex_of_example (r : Q) : string := "0.8".

(** The token an input of the core is about: the one a send generates,
    the one a response echoes. *)
Definition input_token (gen : Z -> Q -> string) (i : input) : string :=
  match i with
  | DoSend now rnd _ _ => gen now rnd
  | GotResponse data => returnId data
  end.

(** A promise that is pending and whose resolver the table does not hold. *)
Definition orphaned (p : nat) (k : Core) : Prop :=
  promises k !! p = Some Pending
  ∧ ∀ t, responseResolvers k !! t ≠ Some p.

(** The part of the clock a single-channel token keeps: the 256 ms window
    of [now], modulo 2^24 windows (2^32 ms). *)
Definition token_window (now : Z) : Z := (now / 256 + 2 ^ 23) mod 2 ^ 24.

(** The base-16 digit of [d], for 0 <= d < 16. *)
Definition hex_digit (d : Z) : string :=
  match d with
  | 0 => "0" | 1 => "1" | 2 => "2" | 3 => "3" | 4 => "4" | 5 => "5"
  | 6 => "6" | 7 => "7" | 8 => "8" | 9 => "9" | 10 => "a" | 11 => "b"
  | 12 => "c" | 13 => "d" | 14 => "e" | _ => "f"
  end.

(** The [k] lowest base-16 digits of [n], zeros included. *)
Fixpoint low_digits (k : nat) (n : Z) : string :=
  match k with
  | O => ""
  | S k' => low_digits k' (n / 16) +:+ hex_digit (n mod 16)
  end.

(** Subscriber 1 subscribes itself again each time it is called. *)
Definition single_first_resubscribes (n : callback) : Single.behaviour :=
  if Nat.eqb n 1 then
    {| Single.does := [Single.CallSubscribe 1]; Single.raises := None |}
  else {| Single.does := []; Single.raises := None |}.

(** Subscriber 1 subscribes a new callback, 4, when called. *)
Definition single_first_adds_fourth (n : callback) : Single.behaviour :=
  if Nat.eqb n 1 then
    {| Single.does := [Single.CallSubscribe 4]; Single.raises := None |}
  else {| Single.does := []; Single.raises := None |}.

(** Props for the examples: three hacks, the middle one with identifier 0. *)
Definition judge_props : JudgeApp.Props :=
  {| JudgeApp.hackOrdering := [5; 0; 9];
     JudgeApp.hackPositions := {[ 5 := 0; 0 := 1; 9 := 2 ]};
     JudgeApp.hacks := [];
     JudgeApp.myJudgeId := 3 |}.

Definition judge_props_nonzero : JudgeApp.Props :=
  {| JudgeApp.hackOrdering := [5; 7; 9];
     JudgeApp.hackPositions := {[ 5 := 0; 7 := 1; 9 := 2 ]};
     JudgeApp.hacks := [];
     JudgeApp.myJudgeId := 3 |}.

(** * Facts *)

(** ** Rendering integers in base 16 is injective *)

Lemma of_pos_no_minus :
  ∀ (p : positive) (rest : string),
    JS.starts_with_minus (HexString.Raw.of_pos p rest) = false.
Proof.
  fix IH 1. intros p rest.
  do 4 try destruct p as [p|p|]; try reflexivity;
    cbn [HexString.Raw.of_pos]; apply IH.
Qed.

Lemma of_pos_inj (p q : positive) :
  HexString.Raw.of_pos p "" = HexString.Raw.of_pos q "" → p = q.
Proof.
  intros H.
  apply (f_equal (λ s, HexString.Raw.to_N s 0%N)) in H.
  rewrite !HexString.Raw.to_N_of_pos in H. cbn in H. congruence.
Qed.

Lemma of_pos_not_zero (p : positive) : HexString.Raw.of_pos p "" ≠ "0".
Proof.
  intros H.
  apply (f_equal (λ s, HexString.Raw.to_N s 0%N)) in H.
  rewrite HexString.Raw.to_N_of_pos in H. cbn in H. discriminate.
Qed.

Lemma Number_toString16_inj (x y : Z) :
  JS.Number_toString16 x = JS.Number_toString16 y → x = y.
Proof.
  destruct x as [|p|p], y as [|q|q]; cbn [JS.Number_toString16]; intros H;
    try reflexivity.
  - symmetry in H. destruct (of_pos_not_zero _ H).
  - discriminate.
  - destruct (of_pos_not_zero _ H).
  - f_equal. by apply of_pos_inj.
  - apply (f_equal JS.starts_with_minus) in H.
    rewrite of_pos_no_minus in H. discriminate.
  - discriminate.
  - apply (f_equal JS.starts_with_minus) in H.
    rewrite of_pos_no_minus in H. discriminate.
  - f_equal. apply of_pos_inj. congruence.
Qed.

(** ** The pending-request table *)

Lemma settle_count_snoc (p : nat) (tr : list effect) (e : effect) :
  settle_count p (tr ++ [e]) =
  (settle_count p tr + if is_settle_of p e then 1 else 0)%nat.
Proof.
  unfold settle_count. rewrite List.filter_app, length_app. cbn.
  by destruct (is_settle_of p e).
Qed.

Lemma last_registered_app (token : string) (tr1 tr2 : list effect) :
  last_registered token (tr1 ++ tr2) =
  match last_registered token tr2 with
  | Some p => Some p
  | None => last_registered token tr1
  end.
Proof.
  induction tr1 as [|e tr1 IH]; cbn.
  - by destruct (last_registered token tr2).
  - rewrite IH. by destruct (last_registered token tr2).
Qed.

Lemma wf_new : wf new_core.
Proof. split; cbn; intros; try done. Qed.

Section CoreFacts.

(** The token generator of either revision. *)
Variable gen : Z -> Q -> string.

Lemma wf_sendAndAwait now rnd n d k :
  wf k → wf (fst (sendAndAwait gen now rnd n d k)).
Proof.
  intros [Hp Hi Hc Hl]. set (t := gen now rnd).
  split; unfold sendAndAwait, new_promise_registering, emit;
    cbn [fst trace promises responseResolvers]; fold t.
  - intros t' p. rewrite lookup_insert. case_decide.
    + intros [= <-]. by rewrite lookup_app_r, Nat.sub_diag.
    + intros H'. rewrite lookup_app_l; eauto.
      eapply lookup_lt_Some; eauto.
  - intros t1 t2 p. rewrite !lookup_insert.
    repeat case_decide; subst; try done.
    + intros [= <-] H'. apply Hp, lookup_lt_Some in H'. lia.
    + intros H' [= <-]. apply Hp, lookup_lt_Some in H'. lia.
    + eauto.
  - intros p. rewrite !settle_count_snoc. cbn. rewrite Hc.
    destruct (decide (p < length (promises k))%nat) as [Hlt|Hge].
    + rewrite lookup_app_l by done. lia.
    + rewrite (lookup_ge_None_2 (promises k)) by lia.
      destruct (decide (p = length (promises k))) as [->|Hne].
      * by rewrite lookup_app_r, Nat.sub_diag.
      * rewrite lookup_ge_None_2; [done|]. rewrite length_app. cbn. lia.
  - intros t' p. rewrite !last_registered_app. cbn.
    rewrite lookup_insert. case_decide.
    + subst t'. intros [= <-]. by rewrite String.eqb_refl.
    + intros H'. destruct (String.eqb_spec t' t); [congruence|]. eauto.
Qed.

Lemma wf_on_response data k : wf k → wf (fst (on_response data k)).
Proof.
  intros Hwf. destruct Hwf as [Hp Hi Hc Hl]. unfold on_response.
  destruct (responseResolvers k !! returnId data) as [p|] eqn:Ht;
    [|by split].
  unfold resolve. rewrite (Hp _ _ Ht).
  split; cbn [fst trace promises responseResolvers].
  - intros t q. rewrite lookup_delete. case_decide; [done|].
    intros Hq. rewrite list_lookup_insert_ne; eauto.
    intros <-. eauto.
  - intros t1 t2 q. rewrite !lookup_delete.
    repeat case_decide; try done. eauto.
  - intros q. rewrite settle_count_snoc, Hc. cbn.
    destruct (decide (p = q)) as [<-|Hne].
    + rewrite (Hp _ _ Ht), Nat.eqb_refl.
      rewrite list_lookup_insert_eq; [done|].
      eapply lookup_lt_Some; eauto.
    + rewrite list_lookup_insert_ne by done.
      destruct (Nat.eqb_spec q p); [congruence|]. lia.
  - intros t q. rewrite lookup_delete. case_decide; [done|].
    intros Hq. rewrite last_registered_app. cbn. eauto.
Qed.

Lemma wf_step k i : wf k → wf (step gen k i).
Proof.
  destruct i; cbn; [apply wf_sendAndAwait | apply wf_on_response].
Qed.

Lemma wf_run ins : ∀ k, wf k → wf (run gen k ins).
Proof.
  induction ins as [|i ins IH]; cbn; intros k Hk; [done|].
  apply IH. by apply wf_step.
Qed.

Lemma reachable_wf k : reachable gen k → wf k.
Proof. intros [ins ->]. apply wf_run, wf_new. Qed.

(** A settled promise stays as it is. *)
Lemma fulfilled_step k i p r :
  promises k !! p = Some (Fulfilled r) →
  promises (step gen k i) !! p = Some (Fulfilled r).
Proof.
  intros H. destruct i as [now rnd n d|data]; cbn.
  - rewrite lookup_app_l; [done|]. eapply lookup_lt_Some; eauto.
  - unfold on_response.
    destruct (responseResolvers k !! returnId data) as [q|]; [|done].
    cbn. unfold resolve.
    destruct (promises k !! q) as [[|r']|] eqn:Hq; try done.
    cbn. rewrite list_lookup_insert_ne; [done|]. congruence.
Qed.

Lemma fulfilled_run ins : ∀ k p r,
  promises k !! p = Some (Fulfilled r) →
  promises (run gen k ins) !! p = Some (Fulfilled r).
Proof.
  induction ins as [|i ins IH]; cbn; intros k p r H; [done|].
  by apply IH, fulfilled_step.
Qed.

End CoreFacts.

Lemma run_app (gen : Z -> Q -> string) (k : Core) (ins1 ins2 : list input) :
  run gen k (ins1 ++ ins2) = run gen (run gen k ins1) ins2.
Proof. unfold run. apply fold_left_app. Qed.

Lemma reachable_step (gen : Z -> Q -> string) (k : Core) (i : input) :
  reachable gen k → reachable gen (step gen k i).
Proof.
  intros [ins ->]. exists (ins ++ [i]). by rewrite run_app.
Qed.

Lemma on_response_known (k : Core) (data : Response) (p : nat) :
  responseResolvers k !! returnId data = Some p →
  promises k !! p = Some Pending →
  on_response data k =
  ({| responseResolvers := delete (returnId data) (responseResolvers k);
      promises := <[p := Fulfilled data]> (promises k);
      trace := trace k ++ [Settled p data] |}, JS.Returned).
Proof.
  intros Ht Hp. unfold on_response, resolve. by rewrite Ht, Hp.
Qed.

Lemma on_response_unknown (k : Core) (data : Response) :
  responseResolvers k !! returnId data = None →
  on_response data k =
  (k, JS.Threw ("Got response with unknown returnId: " +:+ returnId data)).
Proof. intros Ht. unfold on_response. by rewrite Ht. Qed.

Lemma Single_with_core_id (c : Single.SledgeClient) :
  Single.with_core (Single.core c) c = c.
Proof. by destruct c. Qed.

Lemma Dual_with_core_id (c : Dual.SledgeClient) :
  Dual.with_core (Dual.core c) c = c.
Proof. by destruct c. Qed.

(** ** Responses *)

(** C1. In any state the core can reach, a response whose token [T] is in
    the pending-request table with resolver [p] makes the listener return
    normally; [p] is the handle returned by the latest send that registered
    [T], it was pending, it is now fulfilled with this response and no other
    promise changed, exactly one settlement of [p] is recorded then and
    after any further traffic, and the entry for [T] is gone from the table.
    The listeners of both clients are this one applied to their core. *)
Theorem response_settles_pending_handle
    (gen : Z -> Q -> string) (k : Core) (data : Response) (p : nat) :
  reachable gen k →
  responseResolvers k !! returnId data = Some p →
  last_registered (returnId data) (trace k) = Some p
  ∧ promises k !! p = Some Pending
  ∧ ∃ k',
      on_response data k = (k', JS.Returned)
      ∧ promises k' = <[p := Fulfilled data]> (promises k)
      ∧ responseResolvers k' = delete (returnId data) (responseResolvers k)
      ∧ trace k' = trace k ++ [Settled p data]
      ∧ (∀ later,
           promises (run gen k' later) !! p = Some (Fulfilled data)
           ∧ settle_count p (trace (run gen k' later)) = 1%nat)
      ∧ (∀ c, Single.core c = k →
           Single.on_response data c = (Single.with_core k' c, JS.Returned))
      ∧ (∀ c, Dual.core c = k →
           Dual.on_response data c = (Dual.with_core k' c, JS.Returned)).
Proof.
  intros Hreach Ht.
  pose proof (reachable_wf gen k Hreach) as Hwf.
  pose proof (wf_pending k Hwf _ _ Ht) as Hp.
  split; [by apply (wf_last k Hwf)|]. split; [done|].
  pose proof (on_response_known k data p Ht Hp) as Heq.
  eexists. split; [exact Heq|]. cbn [promises responseResolvers trace].
  repeat split.
  - apply fulfilled_run. cbn. apply list_lookup_insert_eq.
    eapply lookup_lt_Some; eauto.
  - pose proof (wf_on_response data k Hwf) as Hwf'. rewrite Heq in Hwf'.
    cbn [fst] in Hwf'. apply (wf_run gen later) in Hwf'.
    rewrite (wf_count _ Hwf'). rewrite fulfilled_run with (r := data); [done|].
    cbn. apply list_lookup_insert_eq. eapply lookup_lt_Some; eauto.
  - intros c <-. unfold Single.on_response. by rewrite Heq.
  - intros c <-. unfold Dual.on_response. by rewrite Heq.
Qed.

(** C2. A response whose token is in no entry of the pending-request table
    makes the listener throw "Got response with unknown returnId: T"; the
    client is left exactly as it was, so the table is unchanged and no
    promise settles.  Stated for the listener of each client. *)
Theorem unknown_token_is_reported (data : Response) :
  (∀ c : Single.SledgeClient,
     responseResolvers (Single.core c) !! returnId data = None →
     Single.on_response data c =
     (c, JS.Threw ("Got response with unknown returnId: " +:+ returnId data)))
  ∧ (∀ c : Dual.SledgeClient,
       responseResolvers (Dual.core c) !! returnId data = None →
       Dual.on_response data c =
       (c, JS.Threw ("Got response with unknown returnId: " +:+ returnId data))).
Proof.
  split; intros c Ht.
  - unfold Single.on_response. rewrite (on_response_unknown _ _ Ht).
    by rewrite Single_with_core_id.
  - unfold Dual.on_response. rewrite (on_response_unknown _ _ Ht).
    by rewrite Dual_with_core_id.
Qed.

Lemma response_settles_pending_handle_witness :
  reachable Single.generateUniqueReturnId scenario_core
  ∧ responseResolvers scenario_core !! returnId scenario_response = Some 0%nat
  ∧ ∃ k',
      on_response scenario_response scenario_core = (k', JS.Returned)
      ∧ promises k' = [Fulfilled scenario_response]
      ∧ settle_count 0 (trace k') = 1%nat.
Proof.
  assert (H1 : reachable Single.generateUniqueReturnId scenario_core)
    by (eexists; reflexivity).
  assert (H2 : responseResolvers scenario_core !! returnId scenario_response
               = Some 0%nat) by (vm_compute; reflexivity).
  split; [exact H1|]. split; [exact H2|].
  destruct (response_settles_pending_handle
              Single.generateUniqueReturnId scenario_core scenario_response
              0%nat H1 H2)
    as (_ & _ & k' & Hrun & Hp & _ & _ & Hlater & _).
  exists k'. split; [exact Hrun|]. split; [exact Hp|].
  exact (proj2 (Hlater [])).
Defined.

Lemma unknown_token_is_reported_witness :
  responseResolvers (Single.core Single.new) !! "deadbeef" = None
  ∧ Single.on_response {| returnId := "deadbeef"; res_body := [] |} Single.new
    = (Single.new,
       JS.Threw "Got response with unknown returnId: deadbeef").
Proof.
  split; [reflexivity|].
  apply (proj1 (unknown_token_is_reported
                  {| returnId := "deadbeef"; res_body := [] |})).
  reflexivity.
Defined.

(** ** Sending *)

Lemma sendAndAwait_effects (gen : Z -> Q -> string) now rnd n d k :
  sendAndAwait gen now rnd n d k =
  ({| responseResolvers :=
        <[gen now rnd := length (promises k)]> (responseResolvers k);
      promises := promises k ++ [Pending];
      trace := trace k ++
        [Generated (gen now rnd);
         Emitted n {| env_data := d; env_returnId := gen now rnd |};
         Registered (gen now rnd) (length (promises k))] |},
   length (promises k)).
Proof.
  unfold sendAndAwait, new_promise_registering, emit. cbn.
  by rewrite <- !app_assoc.
Qed.

(** C3 as stated fails: registration does not come before emission.  On a
    fresh single-channel client, [sendRateHack] of the scenario leaves the
    trace token, emission, registration. *)
Lemma send_registers_after_emitting :
  let tr :=
    trace (Single.core
             (fst (Single.sendRateHack scenario_now scenario_rnd
                     scenario_request Single.new))) in
  tr = [Generated "-301a9780";
        Emitted "RateHack"
          {| env_data := scenario_request; env_returnId := "-301a9780" |};
        Registered "-301a9780" 0%nat]
  ∧ precedes is_emitted is_registered tr
  ∧ ¬ precedes is_registered is_emitted tr.
Proof.
  assert (Htr : trace (Single.core
             (fst (Single.sendRateHack scenario_now scenario_rnd
                     scenario_request Single.new)))
          = [Generated "-301a9780";
             Emitted "RateHack"
               {| env_data := scenario_request; env_returnId := "-301a9780" |};
             Registered "-301a9780" 0%nat]) by (vm_compute; reflexivity).
  cbv zeta. rewrite Htr. split; [reflexivity|]. split.
  - exists 1%nat, 2%nat. repeat split. lia.
  - intros (i & j & Hi & Hj & Hlt). cbn in Hi, Hj.
    injection Hi as <-. injection Hj as <-. lia.
Qed.

(** C3, amended.  Every send method of either client, on any payload:
    generates a token from the clock and the random source, emits the
    envelope (payload and token) under the method's event name, then
    creates the promise and stores its resolver under the token, and
    returns that promise, still pending.  Nothing else happens in between,
    and the subscriber lists are untouched. *)
Theorem send_steps_in_order :
  (∀ n m, (n, m) ∈ Single.send_methods → ∀ now rnd data c,
     let token := Single.generateUniqueReturnId now rnd in
     let p := length (promises (Single.core c)) in
     ∃ c',
       m now rnd data c = (c', p)
       ∧ trace (Single.core c') = trace (Single.core c) ++
           [Generated token;
            Emitted n {| env_data := data; env_returnId := token |};
            Registered token p]
       ∧ responseResolvers (Single.core c')
         = <[token := p]> (responseResolvers (Single.core c))
       ∧ promises (Single.core c') = promises (Single.core c) ++ [Pending]
       ∧ promises (Single.core c') !! p = Some Pending
       ∧ Single.synchronizeSubscribers c' = Single.synchronizeSubscribers c)
  ∧ (∀ hex n m, (n, m) ∈ Dual.send_methods hex → ∀ now rnd data c,
       let token := Dual.generateUniqueReturnId hex now rnd in
       let p := length (promises (Dual.core c)) in
       ∃ c',
         m now rnd data c = (c', p)
         ∧ trace (Dual.core c') = trace (Dual.core c) ++
             [Generated token;
              Emitted n {| env_data := data; env_returnId := token |};
              Registered token p]
         ∧ responseResolvers (Dual.core c')
           = <[token := p]> (responseResolvers (Dual.core c))
         ∧ promises (Dual.core c') = promises (Dual.core c) ++ [Pending]
         ∧ promises (Dual.core c') !! p = Some Pending
         ∧ Dual.syncSharedSubs c' = Dual.syncSharedSubs c
         ∧ Dual.syncAdminSubs c' = Dual.syncAdminSubs c
         ∧ Dual.status_subscribers c' = Dual.status_subscribers c
         ∧ Dual.status c' = Dual.status c).
Proof.
  split.
  - intros n m Hin now rnd data c. cbv zeta.
    assert (Hm : m = λ now rnd data, Single.sendAndAwait now rnd n data).
    { unfold Single.send_methods in Hin.
      repeat (apply elem_of_cons in Hin as [[= -> ->]|Hin]; [reflexivity|]).
      by apply elem_of_nil in Hin. }
    subst m. unfold Single.sendAndAwait. rewrite sendAndAwait_effects.
    eexists. split; [reflexivity|]. cbn. repeat split.
    by rewrite lookup_app_r, Nat.sub_diag.
  - intros hex n m Hin now rnd data c. cbv zeta.
    assert (Hm : m = λ now rnd data, Dual.sendAndAwait hex now rnd n data).
    { unfold Dual.send_methods in Hin.
      repeat (apply elem_of_cons in Hin as [[= -> ->]|Hin]; [reflexivity|]).
      by apply elem_of_nil in Hin. }
    subst m. unfold Dual.sendAndAwait. rewrite sendAndAwait_effects.
    eexists. split; [reflexivity|]. cbn. repeat split.
    by rewrite lookup_app_r, Nat.sub_diag.
Qed.

Lemma send_steps_in_order_witness :
  ("RateHack", Single.sendRateHack) ∈ Single.send_methods
  ∧ ∃ c',
      Single.sendRateHack scenario_now scenario_rnd scenario_request Single.new
      = (c', 0%nat)
      ∧ trace (Single.core c') =
          [Generated "-301a9780";
           Emitted "RateHack"
             {| env_data := scenario_request; env_returnId := "-301a9780" |};
           Registered "-301a9780" 0%nat]
      ∧ promises (Single.core c') !! 0%nat = Some Pending.
Proof.
  assert (Hin : ("RateHack", Single.sendRateHack) ∈ Single.send_methods).
  { unfold Single.send_methods. do 5 apply list_elem_of_further.
    apply list_elem_of_here. }
  split; [exact Hin|].
  destruct (proj1 send_steps_in_order _ _ Hin scenario_now scenario_rnd
              scenario_request Single.new)
    as (c' & Hrun & Htr & _ & _ & Hp & _).
  exists c'. split; [exact Hrun|]. split; [|exact Hp].
  rewrite Htr. vm_compute. reflexivity.
Defined.

(** ** Tokens *)

Lemma append_cancel_l (s a b : string) : s +:+ a = s +:+ b → a = b.
Proof.
  induction s as [|ch s IH]; cbn; [done|]. intros [= H]. by apply IH.
Qed.

Lemma Single_token_eq (now : Z) (r1 r2 : Q) :
  Single.generateUniqueReturnId now r1 = Single.generateUniqueReturnId now r2
  ↔ JS.floor_times_256 r1 = JS.floor_times_256 r2.
Proof.
  unfold Single.generateUniqueReturnId. split.
  - intros H. apply Number_toString16_inj in H. lia.
  - by intros ->.
Qed.

Lemma Dual_token_eq (hex : Q -> string) (now : Z) (r1 r2 : Q) :
  Dual.generateUniqueReturnId hex now r1 = Dual.generateUniqueReturnId hex now r2
  ↔ JS.slice_last 6 (hex r1) = JS.slice_last 6 (hex r2).
Proof.
  unfold Dual.generateUniqueReturnId. split.
  - apply append_cancel_l.
  - by intros ->.
Qed.

(** C6 as stated fails.  Two sends in the same millisecond whose random
    draws are 0.5 and 0.501 both get the token "-301a9780": the draws fall
    in the same 1/256 bucket.  The second registration then replaces the
    first in the table, so the first promise can no longer be settled. *)
Lemma same_millisecond_tokens_collide :
  let c1 := fst (Single.sendRateHack scenario_now (1 # 2) scenario_request
                   Single.new) in
  let c2 := fst (Single.sendAddHack scenario_now (501 # 1000)
                   [("name", VStr "sledge")] c1) in
  List.filter is_generated (trace (Single.core c2))
  = [Generated "-301a9780"; Generated "-301a9780"]
  ∧ responseResolvers (Single.core c2) !! "-301a9780" = Some 1%nat
  ∧ size (responseResolvers (Single.core c2)) = 1%nat
  ∧ promises (Single.core c2) = [Pending; Pending].
Proof. vm_compute. repeat split. Qed.

Lemma two_sends_core (gen : Z -> Q -> string) now1 r1 n1 d1 now2 r2 n2 d2 k :
  fst (sendAndAwait gen now2 r2 n2 d2
         (fst (sendAndAwait gen now1 r1 n1 d1 k)))
  = {| responseResolvers :=
         <[gen now2 r2 := S (length (promises k))]>
           (<[gen now1 r1 := length (promises k)]> (responseResolvers k));
       promises := promises k ++ [Pending; Pending];
       trace := trace k ++
         [Generated (gen now1 r1);
          Emitted n1 {| env_data := d1; env_returnId := gen now1 r1 |};
          Registered (gen now1 r1) (length (promises k));
          Generated (gen now2 r2);
          Emitted n2 {| env_data := d2; env_returnId := gen now2 r2 |};
          Registered (gen now2 r2) (S (length (promises k)))] |}.
Proof.
  rewrite !sendAndAwait_effects. cbn.
  by rewrite length_app, <- !app_assoc, Nat.add_1_r.
Qed.

Lemma Single_send_core now rnd n d c :
  Single.core (fst (Single.sendAndAwait now rnd n d c))
  = fst (sendAndAwait Single.generateUniqueReturnId now rnd n d (Single.core c)).
Proof. unfold Single.sendAndAwait. by rewrite sendAndAwait_effects. Qed.

Lemma Dual_send_core hex now rnd n d c :
  Dual.core (fst (Dual.sendAndAwait hex now rnd n d c))
  = fst (sendAndAwait (Dual.generateUniqueReturnId hex) now rnd n d
           (Dual.core c)).
Proof. unfold Dual.sendAndAwait. by rewrite sendAndAwait_effects. Qed.

(** C6, amended.  Two sends issued back-to-back in the same millisecond on
    one client generate the tokens computed from that millisecond and their
    two random draws, and these tokens are distinct exactly when the random
    components differ: [Math.floor(r*256)] in the single-channel client, the
    last six characters of the base-16 rendering of [r] in the two-channel
    client.  Both promises are created pending.  When the components differ
    the table holds the first promise under the first token and the second
    under the second.  When they coincide the tokens are equal and the
    second registration replaces the first: the table is the one the second
    send alone would have left, and the token leads to the second promise. *)
Theorem same_millisecond_tokens (now : Z) (r1 r2 : Q) :
  (∀ n1 d1 n2 d2 c,
     let t1 := Single.generateUniqueReturnId now r1 in
     let t2 := Single.generateUniqueReturnId now r2 in
     let p := length (promises (Single.core c)) in
     let c1 := fst (Single.sendAndAwait now r1 n1 d1 c) in
     let c2 := fst (Single.sendAndAwait now r2 n2 d2 c1) in
     trace (Single.core c2) = trace (Single.core c) ++
       [Generated t1; Emitted n1 {| env_data := d1; env_returnId := t1 |};
        Registered t1 p;
        Generated t2; Emitted n2 {| env_data := d2; env_returnId := t2 |};
        Registered t2 (S p)]
     ∧ (t1 ≠ t2 ↔ JS.floor_times_256 r1 ≠ JS.floor_times_256 r2)
     ∧ promises (Single.core c2)
       = promises (Single.core c) ++ [Pending; Pending]
     ∧ (JS.floor_times_256 r1 ≠ JS.floor_times_256 r2 →
        responseResolvers (Single.core c2) !! t1 = Some p
        ∧ responseResolvers (Single.core c2) !! t2 = Some (S p))
     ∧ (JS.floor_times_256 r1 = JS.floor_times_256 r2 →
        t1 = t2
        ∧ responseResolvers (Single.core c2)
          = <[t2 := S p]> (responseResolvers (Single.core c))
        ∧ responseResolvers (Single.core c2) !! t1 = Some (S p)))
  ∧ (∀ hex n1 d1 n2 d2 c,
       let t1 := Dual.generateUniqueReturnId hex now r1 in
       let t2 := Dual.generateUniqueReturnId hex now r2 in
       let p := length (promises (Dual.core c)) in
       let c1 := fst (Dual.sendAndAwait hex now r1 n1 d1 c) in
       let c2 := fst (Dual.sendAndAwait hex now r2 n2 d2 c1) in
       trace (Dual.core c2) = trace (Dual.core c) ++
         [Generated t1; Emitted n1 {| env_data := d1; env_returnId := t1 |};
          Registered t1 p;
          Generated t2; Emitted n2 {| env_data := d2; env_returnId := t2 |};
          Registered t2 (S p)]
       ∧ (t1 ≠ t2 ↔ JS.slice_last 6 (hex r1) ≠ JS.slice_last 6 (hex r2))
       ∧ promises (Dual.core c2)
         = promises (Dual.core c) ++ [Pending; Pending]
       ∧ (JS.slice_last 6 (hex r1) ≠ JS.slice_last 6 (hex r2) →
          responseResolvers (Dual.core c2) !! t1 = Some p
          ∧ responseResolvers (Dual.core c2) !! t2 = Some (S p))
       ∧ (JS.slice_last 6 (hex r1) = JS.slice_last 6 (hex r2) →
          t1 = t2
          ∧ responseResolvers (Dual.core c2)
            = <[t2 := S p]> (responseResolvers (Dual.core c))
          ∧ responseResolvers (Dual.core c2) !! t1 = Some (S p))).
Proof.
  assert (Htable : ∀ (gen : Z → Q → string) (k : Core),
    let t1 := gen now r1 in
    let t2 := gen now r2 in
    let p := length (promises k) in
    let m := <[t2 := S p]> (<[t1 := p]> (responseResolvers k)) in
    (t1 ≠ t2 → m !! t1 = Some p ∧ m !! t2 = Some (S p))
    ∧ (t1 = t2 →
       m = <[t2 := S p]> (responseResolvers k) ∧ m !! t1 = Some (S p))).
  { intros gen k. cbv zeta. split.
    - intros Hne. split.
      + by rewrite lookup_insert_ne, lookup_insert_eq.
      + by rewrite lookup_insert_eq.
    - intros ->. split.
      + by rewrite insert_insert_eq.
      + by rewrite lookup_insert_eq. }
  split.
  - intros n1 d1 n2 d2 c. cbv zeta.
    rewrite !Single_send_core, two_sends_core.
    cbn [trace promises responseResolvers].
    destruct (Htable Single.generateUniqueReturnId (Single.core c))
      as [Hdiff Hsame].
    split; [done|]. split; [by rewrite Single_token_eq|].
    split; [done|]. split.
    + intros Hne. apply Hdiff. by rewrite Single_token_eq.
    + intros Heq.
      pose proof (proj2 (Single_token_eq now r1 r2) Heq) as Ht.
      split; [exact Ht|]. by apply Hsame.
  - intros hex n1 d1 n2 d2 c. cbv zeta.
    rewrite !Dual_send_core, two_sends_core.
    cbn [trace promises responseResolvers].
    destruct (Htable (Dual.generateUniqueReturnId hex) (Dual.core c))
      as [Hdiff Hsame].
    split; [done|]. split; [by rewrite Dual_token_eq|].
    split; [done|]. split.
    + intros Hne. apply Hdiff. by rewrite Dual_token_eq.
    + intros Heq.
      pose proof (proj2 (Dual_token_eq hex now r1 r2) Heq) as Ht.
      split; [exact Ht|]. by apply Hsame.
Qed.

Lemma same_millisecond_tokens_witness :
  JS.floor_times_256 (1 # 2) = JS.floor_times_256 (501 # 1000)
  ∧ responseResolvers
      (Single.core
         (fst (Single.sendAndAwait scenario_now (501 # 1000) "AddHack"
                 [("name", VStr "sledge")]
                 (fst (Single.sendAndAwait scenario_now (1 # 2) "RateHack"
                         scenario_request Single.new)))))
    !! Single.generateUniqueReturnId scenario_now (1 # 2) = Some 1%nat.
Proof.
  split; [reflexivity|].
  exact (proj2 (proj2
    (proj2 (proj2 (proj2 (proj2
       (proj1 (same_millisecond_tokens scenario_now (1 # 2) (501 # 1000))
          "RateHack" scenario_request "AddHack" [("name", VStr "sledge")]
          Single.new)))) eq_refl))).
Defined.

(** ** The for-of loop over a subscriber array *)

Section ForOf.

Context {St A B : Type}.
Variable arr : St → list A.
Variable body : A → St → St * JS.completion.
(** A log kept in the state, and what one iteration adds to it. *)
Variable log : St → list B.
Variable entry : A → list B.
(** What every iteration keeps; it pins the array down. *)
Variable Inv : St → Prop.
Variable l : list A.
Hypothesis Inv_arr : ∀ s, Inv s → arr s = l.

Lemma for_of_returns_from :
  ∀ fuel i s,
    (∀ x s, x ∈ drop i l → Inv s →
       ∃ s', body x s = (s', JS.Returned) ∧ Inv s'
             ∧ log s' = log s ++ entry x) →
    Inv s → (length l - i < fuel)%nat →
    ∃ s', JS.for_of arr body fuel i s = Some (s', JS.Returned) ∧ Inv s'
          ∧ log s' = log s ++ mjoin (entry <$> drop i l).
Proof.
  induction fuel as [|fuel IH]; intros i s Hbody Hs Hfuel; [lia|].
  cbn [JS.for_of]. rewrite (Inv_arr s Hs).
  destruct (l !! i) as [x|] eqn:Hi.
  - rewrite (drop_S _ _ _ Hi) in Hbody |- *.
    destruct (Hbody x s (list_elem_of_here _ _) Hs)
      as (s' & -> & Hs' & Hlog).
    apply lookup_lt_Some in Hi as Hlt.
    destruct (IH (S i) s') as (s'' & -> & Hs'' & Hlog''); [|done|lia|].
    { intros y t Hy. apply Hbody. by apply list_elem_of_further. }
    exists s''. repeat split; [done|].
    rewrite Hlog'', Hlog. cbn. by rewrite app_assoc.
  - exists s. repeat split; [done|].
    rewrite drop_ge by (by apply lookup_ge_None_1). cbn.
    by rewrite app_nil_r.
Qed.

Lemma for_of_throws_from (x : A) (post : list A) (m : string) :
  (∀ s, Inv s →
     ∃ s', body x s = (s', JS.Threw m) ∧ log s' = log s ++ entry x) →
  ∀ pre done,
    l = done ++ pre ++ x :: post →
    (∀ y s, y ∈ pre → Inv s →
       ∃ s', body y s = (s', JS.Returned) ∧ Inv s'
             ∧ log s' = log s ++ entry y) →
    ∀ fuel s, Inv s → (length pre < fuel)%nat →
      ∃ s', JS.for_of arr body fuel (length done) s = Some (s', JS.Threw m)
            ∧ log s' = log s ++ mjoin (entry <$> pre) ++ entry x.
Proof.
  intros Hx. induction pre as [|y pre IH];
    intros done Hl Hpre fuel s Hs Hfuel;
    (destruct fuel as [|fuel]; [cbn in Hfuel; lia|]);
    cbn [JS.for_of]; rewrite (Inv_arr s Hs), Hl.
  - cbn. rewrite list_lookup_middle by done.
    destruct (Hx s Hs) as (s' & -> & Hlog). eauto.
  - rewrite <- app_comm_cons, list_lookup_middle by done.
    destruct (Hpre y s) as (s' & -> & Hs' & Hlog);
      [apply list_elem_of_here | done |].
    destruct (IH (done ++ [y])) with (fuel := fuel) (s := s')
      as (s'' & Heq & Hlog'').
    + by rewrite <- app_assoc.
    + intros z t Hz. apply Hpre. by apply list_elem_of_further.
    + done.
    + cbn in Hfuel. lia.
    + rewrite length_app, Nat.add_1_r in Heq. rewrite Heq.
      exists s''. split; [done|].
      rewrite Hlog'', Hlog. cbn. by rewrite <- !app_assoc.
Qed.

(** Walking a stretch of well-behaved elements moves the index across it. *)
Lemma for_of_advance (seg : list A) :
  (∀ y s, y ∈ seg → Inv s →
     ∃ s', body y s = (s', JS.Returned) ∧ Inv s'
           ∧ log s' = log s ++ entry y) →
  ∀ done rest, l = done ++ seg ++ rest →
  ∀ fuel s, Inv s →
    ∃ s', Inv s' ∧ log s' = log s ++ mjoin (entry <$> seg)
          ∧ JS.for_of arr body (length seg + fuel) (length done) s
            = JS.for_of arr body fuel (length done + length seg) s'.
Proof.
  induction seg as [|y seg IH]; intros Hseg done rest Hl fuel s Hs.
  - exists s. cbn. by rewrite app_nil_r, Nat.add_0_r.
  - cbn [length Nat.add JS.for_of]. rewrite (Inv_arr s Hs), Hl.
    rewrite <- app_comm_cons, list_lookup_middle by done.
    destruct (Hseg y s) as (s1 & -> & Hs1 & Hlog1);
      [apply list_elem_of_here | done |].
    destruct (IH (λ z t Hz, Hseg z t (list_elem_of_further _ _ _ Hz))
                (done ++ [y]) rest) with (fuel := fuel) (s := s1)
      as (s' & Hs' & Hlog' & Heq).
    + by rewrite Hl, <- app_assoc.
    + done.
    + exists s'. split; [done|]. split.
      * rewrite Hlog', Hlog1. cbn. by rewrite <- app_assoc.
      * rewrite length_app in Heq. cbn in Heq.
        rewrite Nat.add_1_r in Heq. rewrite Heq. f_equal. lia.
Qed.

End ForOf.

Lemma join_singletons {A B : Type} (f : A → B) (l : list A) :
  mjoin ((λ x, [f x]) <$> l) = f <$> l.
Proof. induction l as [|x l IH]; cbn; [done|]. f_equal. exact IH. Qed.

(** ** Fan-out in the single-channel client *)

Lemma Single_join_entries (e : payload) (l : list (option callback)) :
  mjoin (Single_entry e <$> l) = (λ notify, (notify, e)) <$> omap id l.
Proof.
  induction l as [|[n|] l IH]; cbn; [done| |exact IH]. f_equal. exact IH.
Qed.

Lemma Single_perform_calls (acts : list Single.action) :
  ∀ c, Single.calls (fold_left Single.perform acts c) = Single.calls c.
Proof.
  induction acts as [|a acts IH]; intros c; cbn; [done|].
  rewrite IH. by destruct a as [n|[i]|now rnd n d].
Qed.

Lemma Single_sends_keep_subscribers (acts : list Single.action) :
  forallb Single.is_send acts = true →
  ∀ c, Single.synchronizeSubscribers (fold_left Single.perform acts c)
       = Single.synchronizeSubscribers c.
Proof.
  induction acts as [|a acts IH]; intros Hq c; cbn; [done|].
  cbn in Hq. apply andb_prop in Hq as [Ha Hq]. rewrite (IH Hq).
  by destruct a as [n|u|now rnd n d].
Qed.

Lemma Single_invoke_quiet behave (e : payload) (slot : option callback)
    (l : list (option callback)) (c : Single.SledgeClient) :
  (∀ notify, slot = Some notify → Single.quiet (behave notify) = true) →
  Single.synchronizeSubscribers c = l →
  ∃ c', Single.notify_if_present behave e slot c = (c', JS.Returned)
        ∧ Single.synchronizeSubscribers c' = l
        ∧ Single.calls c' = Single.calls c ++ Single_entry e slot.
Proof.
  intros Hq Hl. destruct slot as [notify|]; cbn.
  - specialize (Hq notify eq_refl). unfold Single.quiet in Hq.
    unfold Single.invoke, Single.finish.
    destruct (Single.raises (behave notify)); [discriminate|].
    eexists. split; [reflexivity|].
    rewrite Single_sends_keep_subscribers, Single_perform_calls by done.
    by cbn.
  - exists c. by rewrite app_nil_r.
Qed.

Lemma Single_invoke_raises behave (e : payload) (notify : callback)
    (m : string) (c : Single.SledgeClient) :
  Single.raises (behave notify) = Some m →
  ∃ c', Single.notify_if_present behave e (Some notify) c = (c', JS.Threw m)
        ∧ Single.calls c' = Single.calls c ++ Single_entry e (Some notify).
Proof.
  intros Hm. cbn. unfold Single.invoke, Single.finish. rewrite Hm.
  eexists. split; [reflexivity|]. by rewrite Single_perform_calls.
Qed.

Lemma Single_fanout_quiet behave (e : payload) (c : Single.SledgeClient)
    (fuel : nat) :
  (∀ notify, Some notify ∈ Single.synchronizeSubscribers c →
     Single.quiet (behave notify) = true) →
  (length (Single.synchronizeSubscribers c) < fuel)%nat →
  ∃ c', Single.on_Synchronize behave fuel e c = Some (c', JS.Returned)
        ∧ Single.calls c' = Single.calls c ++
            ((λ notify, (notify, e)) <$>
               omap id (Single.synchronizeSubscribers c))
        ∧ Single.synchronizeSubscribers c'
          = Single.synchronizeSubscribers c.
Proof.
  intros Hq Hfuel. unfold Single.on_Synchronize.
  destruct (for_of_returns_from Single.synchronizeSubscribers
              (Single.notify_if_present behave e) Single.calls
              (Single_entry e)
              (λ s, Single.synchronizeSubscribers s
                    = Single.synchronizeSubscribers c)
              (Single.synchronizeSubscribers c) (λ s H, H)) with (fuel := fuel)
              (i := 0%nat) (s := c) as (c' & Hrun & Hsubs & Hcalls).
  - intros slot s Hin Hs. apply Single_invoke_quiet; [|done].
    intros notify ->. by apply Hq.
  - done.
  - lia.
  - exists c'. rewrite drop_0, Single_join_entries in Hcalls. done.
Qed.

Lemma Single_fanout_throws behave (e : payload) (c : Single.SledgeClient)
    (fuel : nat) (pre post : list (option callback)) (notify : callback)
    (m : string) :
  Single.synchronizeSubscribers c = pre ++ Some notify :: post →
  (∀ n, Some n ∈ pre → Single.quiet (behave n) = true) →
  Single.raises (behave notify) = Some m →
  (length pre < fuel)%nat →
  ∃ c', Single.on_Synchronize behave fuel e c = Some (c', JS.Threw m)
        ∧ Single.calls c' = Single.calls c ++
            ((λ n, (n, e)) <$> omap id pre) ++ [(notify, e)].
Proof.
  intros Hl Hq Hm Hfuel. unfold Single.on_Synchronize.
  destruct (for_of_throws_from Single.synchronizeSubscribers
              (Single.notify_if_present behave e) Single.calls
              (Single_entry e)
              (λ s, Single.synchronizeSubscribers s
                    = Single.synchronizeSubscribers c)
              (Single.synchronizeSubscribers c) (λ s H, H)
              (Some notify) post m) with (pre := pre) (done := @nil (option callback))
              (fuel := fuel) (s := c) as (c' & Hrun & Hcalls).
  - intros s _. by apply Single_invoke_raises.
  - done.
  - intros slot s Hin Hs. apply Single_invoke_quiet; [|done].
    intros n ->. by apply Hq.
  - done.
  - done.
  - exists c'. rewrite Single_join_entries in Hcalls. done.
Qed.

(** ** Fan-out in the two-channel client *)

Lemma Dual_perform_calls hex (acts : list Dual.action) :
  ∀ c, Dual.calls (fold_left (Dual.perform hex) acts c) = Dual.calls c.
Proof.
  induction acts as [|a acts IH]; intros c; cbn; [done|].
  rewrite IH. by destruct a as [n|n|n|[n]|now rnd n d].
Qed.

Lemma Dual_perform_status hex (acts : list Dual.action) :
  ∀ c, Dual.status (fold_left (Dual.perform hex) acts c) = Dual.status c.
Proof.
  induction acts as [|a acts IH]; intros c; cbn; [done|].
  rewrite IH. by destruct a as [n|n|n|[n]|now rnd n d].
Qed.

(** A subscriber that only sends changes nothing but the core. *)
Lemma Dual_sends_only_core hex (acts : list Dual.action) :
  forallb Dual.is_send acts = true →
  ∀ c, ∃ k, fold_left (Dual.perform hex) acts c = Dual.with_core k c.
Proof.
  induction acts as [|a acts IH]; intros Hq c; cbn.
  - exists (Dual.core c). by destruct c.
  - cbn in Hq. apply andb_prop in Hq as [Ha Hq].
    destruct a as [n|n|n|u|now rnd n d]; try discriminate.
    cbn. destruct (IH Hq (Dual.with_core
      (fst (sendAndAwait (Dual.generateUniqueReturnId hex) now rnd n d
              (Dual.core c))) c)) as [k Hk].
    exists k. exact Hk.
Qed.

Section DualLoop.

Variable hex : Q → string.
Variable behave : callback → Dual.behaviour.
(** The array a listener walks and the log entry of one invocation. *)
Variable arr : Dual.SledgeClient → list callback.
Variable mk : callback → Dual.SledgeClient → Dual.call.
Variable c : Dual.SledgeClient.
Hypothesis arr_frame :
  ∀ k lg, arr (Dual.with_core k (Dual.with_calls lg c)) = arr c.
Hypothesis mk_frame :
  ∀ n k lg, mk n (Dual.with_core k (Dual.with_calls lg c)) = mk n c.

Lemma Dual_invoke_quiet (n : callback) (s : Dual.SledgeClient) :
  Dual.quiet (behave n) = true →
  (∃ k lg, s = Dual.with_core k (Dual.with_calls lg c)) →
  ∃ s', Dual.invoke hex behave n (mk n s) s = (s', JS.Returned)
        ∧ (∃ k lg, s' = Dual.with_core k (Dual.with_calls lg c))
        ∧ Dual.calls s' = Dual.calls s ++ [mk n c].
Proof.
  intros Hq (k & lg & ->). unfold Dual.quiet in Hq.
  unfold Dual.invoke, Dual.finish.
  destruct (Dual.raises (behave n)); [discriminate|].
  eexists. split; [reflexivity|]. rewrite Dual_perform_calls, mk_frame.
  split; [|done].
  edestruct (Dual_sends_only_core hex _ Hq) as [k' ->]. by eexists _, _.
Qed.

Lemma Dual_invoke_raises (n : callback) (m : string) (s : Dual.SledgeClient) :
  Dual.raises (behave n) = Some m →
  (∃ k lg, s = Dual.with_core k (Dual.with_calls lg c)) →
  ∃ s', Dual.invoke hex behave n (mk n s) s = (s', JS.Threw m)
        ∧ Dual.calls s' = Dual.calls s ++ [mk n c].
Proof.
  intros Hm (k & lg & ->). unfold Dual.invoke, Dual.finish. rewrite Hm.
  eexists. split; [reflexivity|]. by rewrite Dual_perform_calls, mk_frame.
Qed.

Lemma Dual_frame_start : ∃ k lg, c = Dual.with_core k (Dual.with_calls lg c).
Proof. exists (Dual.core c), (Dual.calls c). by destruct c. Qed.

Lemma Dual_fanout_quiet_from (fuel i : nat) :
  (∀ n, n ∈ drop i (arr c) → Dual.quiet (behave n) = true) →
  (length (arr c) - i < fuel)%nat →
  ∃ c' k,
    JS.for_of arr (λ n s, Dual.invoke hex behave n (mk n s) s) fuel i c
    = Some (c', JS.Returned)
    ∧ c' = Dual.with_core k
             (Dual.with_calls
                (Dual.calls c ++ ((λ n, mk n c) <$> drop i (arr c))) c).
Proof.
  intros Hq Hfuel.
  destruct (for_of_returns_from arr
              (λ n s, Dual.invoke hex behave n (mk n s) s) Dual.calls
              (λ n, [mk n c])
              (λ s, ∃ k lg, s = Dual.with_core k (Dual.with_calls lg c))
              (arr c)) with (fuel := fuel) (i := i) (s := c)
    as (c' & Hrun & (k & lg & ->) & Hcalls).
  - by intros s (k & lg & ->).
  - intros n s Hin Hs. by apply Dual_invoke_quiet; [apply Hq|].
  - apply Dual_frame_start.
  - lia.
  - exists (Dual.with_core k (Dual.with_calls lg c)), k. split; [done|].
    rewrite join_singletons in Hcalls. cbn in Hcalls. by subst lg.
Qed.

Lemma Dual_fanout_quiet (fuel : nat) :
  (∀ n, n ∈ arr c → Dual.quiet (behave n) = true) →
  (length (arr c) < fuel)%nat →
  ∃ c' k,
    JS.for_of arr (λ n s, Dual.invoke hex behave n (mk n s) s) fuel 0%nat c
    = Some (c', JS.Returned)
    ∧ c' = Dual.with_core k
             (Dual.with_calls
                (Dual.calls c ++ ((λ n, mk n c) <$> arr c)) c).
Proof.
  intros Hq Hfuel. apply (Dual_fanout_quiet_from fuel 0%nat); [done|lia].
Qed.

(** Walking a stretch of well-behaved subscribers from the start. *)
Lemma Dual_fanout_advance (pre rest : list callback) (fuel : nat) :
  arr c = pre ++ rest →
  (∀ n, n ∈ pre → Dual.quiet (behave n) = true) →
  ∃ k,
    JS.for_of arr (λ n s, Dual.invoke hex behave n (mk n s) s)
      (length pre + fuel) 0%nat c
    = JS.for_of arr (λ n s, Dual.invoke hex behave n (mk n s) s)
        fuel (length pre)
        (Dual.with_core k
           (Dual.with_calls (Dual.calls c ++ ((λ n, mk n c) <$> pre)) c)).
Proof.
  intros Hl Hq.
  destruct (for_of_advance arr
              (λ n s, Dual.invoke hex behave n (mk n s) s) Dual.calls
              (λ n, [mk n c])
              (λ s, ∃ k lg, s = Dual.with_core k (Dual.with_calls lg c))
              (arr c)) with (seg := pre) (done := @nil callback)
              (rest := rest) (fuel := fuel) (s := c)
    as (s1 & (k & lg & ->) & Hlog & Heq).
  - by intros s (k & lg & ->).
  - intros n s Hin Hs. by apply Dual_invoke_quiet; [apply Hq|].
  - done.
  - apply Dual_frame_start.
  - exists k. rewrite join_singletons in Hlog. cbn in Hlog. subst lg.
    exact Heq.
Qed.

Lemma Dual_fanout_throws (fuel : nat) (pre post : list callback)
    (n : callback) (m : string) :
  arr c = pre ++ n :: post →
  (∀ y, y ∈ pre → Dual.quiet (behave y) = true) →
  Dual.raises (behave n) = Some m →
  (length pre < fuel)%nat →
  ∃ c',
    JS.for_of arr (λ n s, Dual.invoke hex behave n (mk n s) s) fuel 0%nat c
    = Some (c', JS.Threw m)
    ∧ Dual.calls c' =
        Dual.calls c ++ ((λ y, mk y c) <$> pre) ++ [mk n c].
Proof.
  intros Hl Hq Hm Hfuel.
  destruct (for_of_throws_from arr
              (λ n s, Dual.invoke hex behave n (mk n s) s) Dual.calls
              (λ n, [mk n c])
              (λ s, ∃ k lg, s = Dual.with_core k (Dual.with_calls lg c))
              (arr c)) with (x := n) (post := post) (m := m) (pre := pre)
              (done := @nil callback) (fuel := fuel) (s := c)
    as (c' & Hrun & Hcalls).
  - by intros s (k & lg & ->).
  - intros s Hs. by apply Dual_invoke_raises.
  - done.
  - intros y s Hin Hs. by apply Dual_invoke_quiet; [apply Hq|].
  - apply Dual_frame_start.
  - done.
  - exists c'. split; [done|]. by rewrite join_singletons in Hcalls.
Qed.

End DualLoop.

Lemma Dual_dispatchStatus_quiet hex behave (c : Dual.SledgeClient)
    (fuel : nat) :
  (∀ d, d ∈ Dual.status_subscribers c → Dual.quiet (behave d) = true) →
  (length (Dual.status_subscribers c) < fuel)%nat →
  ∃ c' k,
    Dual.dispatchStatus hex behave fuel c = Some (c', JS.Returned)
    ∧ c' = Dual.with_core k
             (Dual.with_calls
                (Dual.calls c ++
                 ((λ d, Dual.StatusCall d (Dual.status c)) <$>
                    Dual.status_subscribers c)) c).
Proof.
  intros Hq Hfuel. unfold Dual.dispatchStatus.
  apply (Dual_fanout_quiet hex behave
           (Dual.array_at (Dual.statusSubscribers c))
           (λ d s, Dual.StatusCall d (Dual.status s)) c); done.
Qed.

(** ** How a pass ends, whatever the subscribers do *)

Lemma pass_outcome_app (raises : callback → option string)
    (ns1 ns2 : list callback) (r : JS.completion) :
  pass_outcome raises ns1 JS.Returned →
  pass_outcome raises ns2 r → pass_outcome raises (ns1 ++ ns2) r.
Proof.
  intros H1 H2. destruct r as [|m]; cbn in *.
  - by apply Forall_app.
  - destruct H2 as (pre & n & -> & Hpre & Hn).
    exists (ns1 ++ pre), n. rewrite app_assoc.
    split; [done|]. split; [by apply Forall_app | done].
Qed.

Lemma pass_outcome_one (raises : callback → option string) (n : callback)
    (r : JS.completion) :
  r = match raises n with Some m => JS.Threw m | None => JS.Returned end →
  pass_outcome raises [n] r.
Proof.
  intros ->. destruct (raises n) as [m|] eqn:Hn; cbn.
  - exists [], n. by repeat split.
  - by repeat constructor.
Qed.

Section ForOfOutcome.

Context {St A B : Type}.
Variable arr : St → list A.
Variable body : A → St → St * JS.completion.
Variable log : St → list B.
Variable entry : callback → B.
Variable raises : callback → option string.
Variable Inv : St → Prop.
Hypothesis body_step :
  ∀ x s, Inv s →
    ∃ ns, Inv (fst (body x s))
          ∧ log (fst (body x s)) = log s ++ (entry <$> ns)
          ∧ pass_outcome raises ns (snd (body x s)).

Lemma for_of_outcome :
  ∀ fuel i s s' r,
    Inv s → JS.for_of arr body fuel i s = Some (s', r) →
    Inv s' ∧ ∃ ns, log s' = log s ++ (entry <$> ns)
                   ∧ pass_outcome raises ns r.
Proof.
  induction fuel as [|fuel IH]; intros i s s' r Hs Hrun; [discriminate|].
  cbn [JS.for_of] in Hrun. destruct (arr s !! i) as [x|].
  - destruct (body_step x s Hs) as (ns & Hs1 & Hlog1 & Hout1).
    destruct (body x s) as [s1 [|m]]; cbn [fst snd] in *.
    + destruct (IH _ _ _ _ Hs1 Hrun) as (Hs' & ns' & Hlog' & Hout').
      split; [done|]. exists (ns ++ ns'). split.
      * by rewrite Hlog', Hlog1, fmap_app, app_assoc.
      * by apply pass_outcome_app.
    + injection Hrun as <- <-. split; [done|]. by exists ns.
  - injection Hrun as <- <-. split; [done|]. exists [].
    split; [by rewrite app_nil_r | by constructor].
Qed.

End ForOfOutcome.

Lemma Single_pass_outcome behave (e : payload) (fuel : nat)
    (c c' : Single.SledgeClient) (r : JS.completion) :
  Single.on_Synchronize behave fuel e c = Some (c', r) →
  ∃ ns, Single.calls c' = Single.calls c ++ ((λ n, (n, e)) <$> ns)
        ∧ pass_outcome (λ n, Single.raises (behave n)) ns r.
Proof.
  intros Hrun. unfold Single.on_Synchronize in Hrun.
  apply (for_of_outcome Single.synchronizeSubscribers
           (Single.notify_if_present behave e) Single.calls
           (λ n, (n, e)) (λ n, Single.raises (behave n)) (λ _, True))
    in Hrun as [_ H]; [exact H| |done].
  intros [n|] s _.
  - exists [n]. split; [done|]. cbn [Single.notify_if_present fst snd].
    unfold Single.invoke. cbn [fst snd]. split.
    + by rewrite Single_perform_calls.
    + by apply pass_outcome_one.
  - exists []. split; [done|]. cbn. split; [by rewrite app_nil_r|].
    by constructor.
Qed.

Lemma Dual_pass_outcome hex behave
    (arr : Dual.SledgeClient → list callback)
    (mk : callback → Dual.SledgeClient → Dual.call)
    (entry : callback → Dual.call) (Inv : Dual.SledgeClient → Prop) :
  (∀ n s, Inv s → mk n s = entry n) →
  (∀ s lg acts, Inv s →
     Inv (fold_left (Dual.perform hex) acts (Dual.with_calls lg s))) →
  ∀ fuel i c c' r,
    Inv c →
    JS.for_of arr (λ n s, Dual.invoke hex behave n (mk n s) s) fuel i c
    = Some (c', r) →
    Inv c' ∧ ∃ ns, Dual.calls c' = Dual.calls c ++ (entry <$> ns)
                   ∧ pass_outcome (λ n, Dual.raises (behave n)) ns r.
Proof.
  intros Hmk Hinv fuel i c c' r Hc Hrun.
  apply (for_of_outcome arr
           (λ n s, Dual.invoke hex behave n (mk n s) s) Dual.calls
           entry (λ n, Dual.raises (behave n)) Inv) in Hrun; [done| |done].
  intros n s Hs. exists [n]. unfold Dual.invoke. cbn [fst snd].
  split; [by apply Hinv|]. split.
  - by rewrite Dual_perform_calls, (Hmk n s Hs).
  - by apply pass_outcome_one.
Qed.

Lemma Dual_sync_pass_outcome hex behave
    (arr : Dual.SledgeClient → list callback) (e : payload) (fuel : nat)
    (c c' : Dual.SledgeClient) (r : JS.completion) :
  JS.for_of arr (λ n s, Dual.invoke hex behave n (Dual.SyncCall n e) s)
    fuel 0%nat c = Some (c', r) →
  ∃ ns, Dual.calls c' = Dual.calls c ++ ((λ n, Dual.SyncCall n e) <$> ns)
        ∧ pass_outcome (λ n, Dual.raises (behave n)) ns r.
Proof.
  intros Hrun.
  by apply (Dual_pass_outcome hex behave arr (λ n _, Dual.SyncCall n e)
              (λ n, Dual.SyncCall n e) (λ _, True)) in Hrun as [_ H].
Qed.

Lemma Dual_dispatchStatus_outcome hex behave (fuel : nat)
    (c c' : Dual.SledgeClient) (r : JS.completion) :
  Dual.dispatchStatus hex behave fuel c = Some (c', r) →
  Dual.status c' = Dual.status c
  ∧ ∃ ds, Dual.calls c' = Dual.calls c ++
            ((λ d, Dual.StatusCall d (Dual.status c)) <$> ds)
          ∧ pass_outcome (λ d, Dual.raises (behave d)) ds r.
Proof.
  intros Hrun. unfold Dual.dispatchStatus in Hrun.
  apply (Dual_pass_outcome hex behave
           (Dual.array_at (Dual.statusSubscribers c))
           (λ d s, Dual.StatusCall d (Dual.status s))
           (λ d, Dual.StatusCall d (Dual.status c))
           (λ s, Dual.status s = Dual.status c)) in Hrun; [done| | |done].
  - by intros n s ->.
  - intros s lg acts Hs. by rewrite Dual_perform_status.
Qed.

Lemma Dual_dispatchStatus_throws hex behave (c : Dual.SledgeClient)
    (fuel : nat) (pre post : list callback) (d : callback) (m : string) :
  Dual.status_subscribers c = pre ++ d :: post →
  (∀ y, y ∈ pre → Dual.quiet (behave y) = true) →
  Dual.raises (behave d) = Some m →
  (length pre < fuel)%nat →
  ∃ c', Dual.dispatchStatus hex behave fuel c = Some (c', JS.Threw m)
        ∧ Dual.calls c' = Dual.calls c ++
            ((λ y, Dual.StatusCall y (Dual.status c)) <$> pre)
            ++ [Dual.StatusCall d (Dual.status c)].
Proof.
  intros Hl Hq Hm Hfuel. unfold Dual.dispatchStatus.
  by apply (Dual_fanout_throws hex behave
              (Dual.array_at (Dual.statusSubscribers c))
              (λ d s, Dual.StatusCall d (Dual.status s)) c) with (post := post).
Qed.

Lemma Dual_lifecycle_listener hex behave name s on :
  (name, s, on) ∈ Dual.lifecycle_listeners hex behave →
  ∀ fuel c,
    on fuel c = Dual.dispatchStatus hex behave fuel (Dual.with_status s c).
Proof.
  unfold Dual.lifecycle_listeners. intros Hin fuel c.
  repeat (apply elem_of_cons in Hin as [[= -> -> ->]|Hin]; [reflexivity|]).
  by apply elem_of_nil in Hin.
Qed.

(** A loop that comes to a subscriber that throws ends with that call,
    wherever it stands and whatever happened before. *)
Lemma Single_thrower_ends_loop behave (e : payload) (fuel i : nat)
    (c : Single.SledgeClient) (n : callback) (m : string) :
  Single.synchronizeSubscribers c !! i = Some (Some n) →
  Single.raises (behave n) = Some m →
  ∃ c', JS.for_of Single.synchronizeSubscribers
          (Single.notify_if_present behave e) (S fuel) i c
        = Some (c', JS.Threw m)
        ∧ Single.calls c' = Single.calls c ++ [(n, e)].
Proof.
  intros Hi Hm. cbn [JS.for_of]. rewrite Hi.
  destruct (Single_invoke_raises behave e n m c Hm) as (c' & -> & Hcalls).
  by exists c'.
Qed.

Lemma Dual_thrower_ends_loop hex behave
    (arr : Dual.SledgeClient → list callback) (e : payload) (fuel i : nat)
    (c : Dual.SledgeClient) (n : callback) (m : string) :
  arr c !! i = Some n →
  Dual.raises (behave n) = Some m →
  ∃ c', JS.for_of arr
          (λ notify c, Dual.invoke hex behave notify (Dual.SyncCall notify e) c)
          (S fuel) i c
        = Some (c', JS.Threw m)
        ∧ Dual.calls c' = Dual.calls c ++ [Dual.SyncCall n e].
Proof.
  intros Hi Hm. cbn [JS.for_of]. rewrite Hi.
  unfold Dual.invoke, Dual.finish. rewrite Hm.
  eexists. split; [reflexivity|]. by rewrite Dual_perform_calls.
Qed.

(** ** Connection status *)

(** C4 as stated fails.  With status subscribers 1, 2 and 3 registered in
    that order and subscriber 2 throwing, the [connect] listener sets the
    status, calls 1 and 2 and throws: subscriber 3 is not notified. *)
Lemma status_pass_stops_at_throwing_subscriber :
  Dual.status_subscribers dual_three_status = [1; 2; 3]%nat
  ∧ match Dual.on_connect hex_of_example dual_second_throws 10
            dual_three_status with
    | Some (c', JS.Threw m) =>
        m = "boom"
        ∧ Dual.status c' = Dual.Connected
        ∧ Dual.calls c' = [Dual.StatusCall 1 Dual.Connected;
                           Dual.StatusCall 2 Dual.Connected]
        ∧ (Dual.StatusCall 3 Dual.Connected ∉ Dual.calls c')
    | _ => False
    end.
Proof.
  split; [reflexivity|]. vm_compute. repeat split.
  intros H. apply elem_of_cons in H as [H|H]; [discriminate|].
  apply list_elem_of_singleton in H. discriminate.
Qed.

(** C4, amended.  A new two-channel client has status Connecting (the
    single-channel client has no status).  For each of the listeners of
    [connect], [reconnecting] and [reconnect_failed], with the status
    Connected, Reconnecting and Disconnected it assigns:
    - whatever the status subscribers do, when the listener has ended
      (returned or thrown) the status is the new one, every invocation it
      made was of a status subscriber with the new status, and all the
      subscribers invoked returned normally except, when the listener
      threw, the last one, whose error it is;
    - when every current status subscriber returns normally and calls no
      subscribe method and no unsubscribe closure while it runs (it may
      send requests), the listener returns after invoking each of them
      once, in registration order, with the new status, and the
      subscriber list is as before;
    - when a status subscriber throws and the ones registered before it
      are as in the previous item, the listener invokes these and it, in
      order, with the new status, and throws its error: the later
      subscribers are not notified. *)
Theorem status_transitions_notify_subscribers :
  Dual.status Dual.new = Dual.Connecting
  ∧ ∀ hex behave name s on,
      (name, s, on) ∈ Dual.lifecycle_listeners hex behave →
      ∀ c fuel,
        (∀ c' r, on fuel c = Some (c', r) →
           Dual.status c' = s
           ∧ ∃ ds, Dual.calls c' = Dual.calls c ++
                     ((λ d, Dual.StatusCall d s) <$> ds)
                   ∧ pass_outcome (λ d, Dual.raises (behave d)) ds r)
        ∧ ((∀ d, d ∈ Dual.status_subscribers c →
              Dual.quiet (behave d) = true) →
           (length (Dual.status_subscribers c) < fuel)%nat →
           ∃ c', on fuel c = Some (c', JS.Returned)
                 ∧ Dual.status c' = s
                 ∧ Dual.calls c' = Dual.calls c ++
                     ((λ d, Dual.StatusCall d s) <$>
                        Dual.status_subscribers c)
                 ∧ Dual.status_subscribers c' = Dual.status_subscribers c)
        ∧ (∀ pre d post m,
             Dual.status_subscribers c = pre ++ d :: post →
             (∀ y, y ∈ pre → Dual.quiet (behave y) = true) →
             Dual.raises (behave d) = Some m →
             (length pre < fuel)%nat →
             ∃ c', on fuel c = Some (c', JS.Threw m)
                   ∧ Dual.status c' = s
                   ∧ Dual.calls c' = Dual.calls c ++
                       ((λ y, Dual.StatusCall y s) <$> pre)
                       ++ [Dual.StatusCall d s]).
Proof.
  split; [reflexivity|]. intros hex behave name s on Hin c fuel.
  pose proof (Dual_lifecycle_listener hex behave name s on Hin fuel c) as Hon.
  rewrite Hon. clear Hon Hin. split; [|split].
  - intros c' r Hrun. by apply Dual_dispatchStatus_outcome in Hrun.
  - intros Hq Hfuel.
    destruct (Dual_dispatchStatus_quiet hex behave (Dual.with_status s c) fuel)
      as (c' & k & Hrun & ->); [done..|].
    eexists. split; [exact Hrun|]. done.
  - intros pre d post m Hl Hq Hm Hfuel.
    destruct (Dual_dispatchStatus_throws hex behave (Dual.with_status s c)
                fuel pre post d m) as (c' & Hrun & Hcalls); [done..|].
    exists c'. split; [exact Hrun|].
    apply Dual_dispatchStatus_outcome in Hrun as [Hst _]. by split.
Qed.

Lemma status_transitions_notify_subscribers_witness :
  (("connect", Dual.Connected, Dual.on_connect hex_of_example dual_polite)
   ∈ Dual.lifecycle_listeners hex_of_example dual_polite)
  ∧ (∀ d, d ∈ Dual.status_subscribers dual_two_status →
       Dual.quiet (dual_polite d) = true)
  ∧ (length (Dual.status_subscribers dual_two_status) < 3)%nat
  ∧ ∃ c', Dual.on_connect hex_of_example dual_polite 3 dual_two_status
          = Some (c', JS.Returned)
          ∧ Dual.status c' = Dual.Connected
          ∧ Dual.calls c' = [Dual.StatusCall 1 Dual.Connected;
                             Dual.StatusCall 2 Dual.Connected].
Proof.
  assert (Hin :
    ("connect", Dual.Connected, Dual.on_connect hex_of_example dual_polite)
    ∈ Dual.lifecycle_listeners hex_of_example dual_polite)
    by apply list_elem_of_here.
  assert (Hq : ∀ d, d ∈ Dual.status_subscribers dual_two_status →
                 Dual.quiet (dual_polite d) = true).
  { intros d _. unfold dual_polite. by destruct (Nat.eqb d 2). }
  assert (Hfuel : (length (Dual.status_subscribers dual_two_status) < 3)%nat)
    by (cbn; lia).
  split; [exact Hin|]. split; [exact Hq|]. split; [exact Hfuel|].
  destruct (proj1 (proj2
              (proj2 status_transitions_notify_subscribers hex_of_example
                 dual_polite "connect" Dual.Connected _ Hin
                 dual_two_status 3%nat)) Hq Hfuel)
    as (c' & Hrun & Hst & Hcalls & _).
  exists c'. split; [exact Hrun|]. split; [exact Hst|]. exact Hcalls.
Defined.

(** ** Broadcasts *)

(** C5 as stated fails.  With subscribers 1, 2 and 3 of the shared channel
    registered in that order and subscriber 2 throwing, a
    "SynchronizeShared" broadcast calls 1 and 2 and the listener throws:
    subscriber 3, registered when the broadcast arrived, is not called. *)
Lemma shared_broadcast_stops_at_throwing_subscriber :
  Dual.syncSharedSubs dual_three_shared = [1; 2; 3]%nat
  ∧ match Dual.on_SynchronizeShared hex_of_example dual_second_throws 10
            scenario_broadcast dual_three_shared with
    | Some (c', JS.Threw m) =>
        m = "boom"
        ∧ Dual.calls c' = [Dual.SyncCall 1 scenario_broadcast;
                           Dual.SyncCall 2 scenario_broadcast]
        ∧ (Dual.SyncCall 3 scenario_broadcast ∉ Dual.calls c')
    | _ => False
    end.
Proof.
  split; [reflexivity|]. vm_compute. repeat split.
  intros H. apply elem_of_cons in H as [H|H]; [discriminate|].
  apply list_elem_of_singleton in H. discriminate.
Qed.

(** C5, amended.  When a broadcast arrives ("Synchronize" in the
    single-channel client, "SynchronizeShared" or "SynchronizeAdmin" in the
    two-channel one) and every currently registered subscriber returns
    normally and calls no subscribe method and no unsubscribe closure while
    it runs (it may send requests), the listener calls, before it returns,
    each currently registered subscriber once, in registration order, with
    the event it received. *)
Theorem broadcast_notifies_subscribers_in_order (e : payload) :
  (∀ behave c fuel,
     (∀ notify, Some notify ∈ Single.synchronizeSubscribers c →
        Single.quiet (behave notify) = true) →
     (length (Single.synchronizeSubscribers c) < fuel)%nat →
     ∃ c', Single.on_Synchronize behave fuel e c = Some (c', JS.Returned)
           ∧ Single.calls c' = Single.calls c ++
               ((λ notify, (notify, e)) <$>
                  omap id (Single.synchronizeSubscribers c)))
  ∧ (∀ hex behave c fuel,
       (∀ notify, notify ∈ Dual.syncSharedSubs c →
          Dual.quiet (behave notify) = true) →
       (length (Dual.syncSharedSubs c) < fuel)%nat →
       ∃ c', Dual.on_SynchronizeShared hex behave fuel e c
             = Some (c', JS.Returned)
             ∧ Dual.calls c' = Dual.calls c ++
                 ((λ notify, Dual.SyncCall notify e) <$>
                    Dual.syncSharedSubs c))
  ∧ (∀ hex behave c fuel,
       (∀ notify, notify ∈ Dual.syncAdminSubs c →
          Dual.quiet (behave notify) = true) →
       (length (Dual.syncAdminSubs c) < fuel)%nat →
       ∃ c', Dual.on_SynchronizeAdmin hex behave fuel e c
             = Some (c', JS.Returned)
             ∧ Dual.calls c' = Dual.calls c ++
                 ((λ notify, Dual.SyncCall notify e) <$>
                    Dual.syncAdminSubs c)).
Proof.
  split; [|split].
  - intros behave c fuel Hq Hfuel.
    destruct (Single_fanout_quiet behave e c fuel Hq Hfuel)
      as (c' & Hrun & Hcalls & _).
    by exists c'.
  - intros hex behave c fuel Hq Hfuel.
    destruct (Dual_fanout_quiet hex behave Dual.syncSharedSubs
                (λ n _, Dual.SyncCall n e) c) with (fuel := fuel)
      as (c' & k & Hrun & ->); [done..|].
    eexists. split; [exact Hrun|]. done.
  - intros hex behave c fuel Hq Hfuel.
    destruct (Dual_fanout_quiet hex behave Dual.syncAdminSubs
                (λ n _, Dual.SyncCall n e) c) with (fuel := fuel)
      as (c' & k & Hrun & ->); [done..|].
    eexists. split; [exact Hrun|]. done.
Qed.

(** C7, amended.  A broadcast fan-out has no isolation of failures: a
    subscriber that throws ends the pass.  For the "Synchronize",
    "SynchronizeShared" and "SynchronizeAdmin" listeners:
    - in any pass, whatever the subscribers do, when the listener has ended
      (returned or thrown) every subscriber it invoked returned normally
      except, when it threw, the last one invoked, whose error the
      listener throws: nothing is invoked after a subscriber that throws;
    - wherever a pass stands, whatever happened in it before, when the
      loop comes to a subscriber that throws it invokes it and ends with
      that call, throwing its error;
    - when a subscriber throws and the ones registered before it return
      normally and call no subscribe method and no unsubscribe closure
      while they run (they may send requests), the listener invokes
      these and it, in registration order, and throws its error: none of
      the subscribers after it is invoked in that pass. *)
Theorem throwing_subscriber_ends_the_pass (e : payload) :
  (∀ behave c fuel,
     (∀ c' r, Single.on_Synchronize behave fuel e c = Some (c', r) →
        ∃ ns, Single.calls c' = Single.calls c ++ ((λ n, (n, e)) <$> ns)
              ∧ pass_outcome (λ n, Single.raises (behave n)) ns r)
     ∧ (∀ i notify m,
          Single.synchronizeSubscribers c !! i = Some (Some notify) →
          Single.raises (behave notify) = Some m →
          ∃ c', JS.for_of Single.synchronizeSubscribers
                  (Single.notify_if_present behave e) (S fuel) i c
                = Some (c', JS.Threw m)
                ∧ Single.calls c' = Single.calls c ++ [(notify, e)])
     ∧ (∀ pre notify post m,
          Single.synchronizeSubscribers c = pre ++ Some notify :: post →
          (∀ n, Some n ∈ pre → Single.quiet (behave n) = true) →
          Single.raises (behave notify) = Some m →
          (length pre < fuel)%nat →
          ∃ c', Single.on_Synchronize behave fuel e c = Some (c', JS.Threw m)
                ∧ Single.calls c' = Single.calls c ++
                    ((λ n, (n, e)) <$> omap id pre) ++ [(notify, e)]))
  ∧ (∀ hex behave c fuel,
       (∀ c' r, Dual.on_SynchronizeShared hex behave fuel e c = Some (c', r) →
          ∃ ns, Dual.calls c' = Dual.calls c ++
                  ((λ n, Dual.SyncCall n e) <$> ns)
                ∧ pass_outcome (λ n, Dual.raises (behave n)) ns r)
       ∧ (∀ i notify m,
            Dual.syncSharedSubs c !! i = Some notify →
            Dual.raises (behave notify) = Some m →
            ∃ c', JS.for_of Dual.syncSharedSubs
                    (λ notify c,
                       Dual.invoke hex behave notify (Dual.SyncCall notify e) c)
                    (S fuel) i c
                  = Some (c', JS.Threw m)
                  ∧ Dual.calls c' = Dual.calls c ++ [Dual.SyncCall notify e])
       ∧ (∀ pre notify post m,
            Dual.syncSharedSubs c = pre ++ notify :: post →
            (∀ n, n ∈ pre → Dual.quiet (behave n) = true) →
            Dual.raises (behave notify) = Some m →
            (length pre < fuel)%nat →
            ∃ c', Dual.on_SynchronizeShared hex behave fuel e c
                  = Some (c', JS.Threw m)
                  ∧ Dual.calls c' = Dual.calls c ++
                      ((λ n, Dual.SyncCall n e) <$> pre)
                      ++ [Dual.SyncCall notify e]))
  ∧ (∀ hex behave c fuel,
       (∀ c' r, Dual.on_SynchronizeAdmin hex behave fuel e c = Some (c', r) →
          ∃ ns, Dual.calls c' = Dual.calls c ++
                  ((λ n, Dual.SyncCall n e) <$> ns)
                ∧ pass_outcome (λ n, Dual.raises (behave n)) ns r)
       ∧ (∀ i notify m,
            Dual.syncAdminSubs c !! i = Some notify →
            Dual.raises (behave notify) = Some m →
            ∃ c', JS.for_of Dual.syncAdminSubs
                    (λ notify c,
                       Dual.invoke hex behave notify (Dual.SyncCall notify e) c)
                    (S fuel) i c
                  = Some (c', JS.Threw m)
                  ∧ Dual.calls c' = Dual.calls c ++ [Dual.SyncCall notify e])
       ∧ (∀ pre notify post m,
            Dual.syncAdminSubs c = pre ++ notify :: post →
            (∀ n, n ∈ pre → Dual.quiet (behave n) = true) →
            Dual.raises (behave notify) = Some m →
            (length pre < fuel)%nat →
            ∃ c', Dual.on_SynchronizeAdmin hex behave fuel e c
                  = Some (c', JS.Threw m)
                  ∧ Dual.calls c' = Dual.calls c ++
                      ((λ n, Dual.SyncCall n e) <$> pre)
                      ++ [Dual.SyncCall notify e])).
Proof.
  split; [|split].
  - intros behave c fuel. split; [|split].
    + intros c' r. apply Single_pass_outcome.
    + intros i notify m. apply Single_thrower_ends_loop.
    + intros pre notify post m. apply Single_fanout_throws.
  - intros hex behave c fuel. split; [|split].
    + intros c' r. apply Dual_sync_pass_outcome.
    + intros i notify m. apply Dual_thrower_ends_loop.
    + intros pre notify post m.
      by apply (Dual_fanout_throws hex behave Dual.syncSharedSubs
                  (λ n _, Dual.SyncCall n e) c).
  - intros hex behave c fuel. split; [|split].
    + intros c' r. apply Dual_sync_pass_outcome.
    + intros i notify m. apply Dual_thrower_ends_loop.
    + intros pre notify post m.
      by apply (Dual_fanout_throws hex behave Dual.syncAdminSubs
                  (λ n _, Dual.SyncCall n e) c).
Qed.

Lemma broadcast_notifies_subscribers_in_order_witness :
  (∀ notify, Some notify ∈ Single.synchronizeSubscribers single_three →
     Single.quiet (single_polite notify) = true)
  ∧ (length (Single.synchronizeSubscribers single_three) < 4)%nat
  ∧ ∃ c', Single.on_Synchronize single_polite 4 scenario_broadcast
            single_three = Some (c', JS.Returned)
          ∧ Single.calls c' = [(1%nat, scenario_broadcast);
                               (2%nat, scenario_broadcast);
                               (3%nat, scenario_broadcast)].
Proof.
  assert (Hq : ∀ notify,
             Some notify ∈ Single.synchronizeSubscribers single_three →
             Single.quiet (single_polite notify) = true).
  { intros n _. unfold single_polite. by destruct (Nat.eqb n 2). }
  assert (Hfuel :
            (length (Single.synchronizeSubscribers single_three) < 4)%nat)
    by (cbn; lia).
  split; [exact Hq|]. split; [exact Hfuel|].
  destruct (proj1 (broadcast_notifies_subscribers_in_order scenario_broadcast)
              single_polite single_three 4%nat Hq Hfuel)
    as (c' & Hrun & Hcalls).
  exists c'. split; [exact Hrun|]. exact Hcalls.
Defined.

(** The scenario of the specification in the two-channel client: a
    shared-state broadcast with three subscribers calls all three, in
    registration order, with the same event. *)
Example shared_broadcast_reaches_three_subscribers :
  match Dual.on_SynchronizeShared hex_of_example dual_polite 10
          scenario_broadcast dual_three_shared with
  | Some (c', JS.Returned) =>
      Dual.calls c' = [Dual.SyncCall 1 scenario_broadcast;
                       Dual.SyncCall 2 scenario_broadcast;
                       Dual.SyncCall 3 scenario_broadcast]
  | _ => False
  end.
Proof. vm_compute. reflexivity. Qed.

(** C7 as stated fails.  With subscribers 1, 2 and 3 registered in that
    order and subscriber 1 throwing, the "Synchronize" listener throws
    after calling subscriber 1 only: 2 and 3 are not called. *)
Lemma throwing_subscriber_starves_the_rest :
  Single.synchronizeSubscribers single_three = [Some 1; Some 2; Some 3]%nat
  ∧ match Single.on_Synchronize single_first_throws 10 scenario_broadcast
            single_three with
    | Some (c', JS.Threw m) =>
        m = "boom"
        ∧ Single.calls c' = [(1%nat, scenario_broadcast)]
        ∧ ((2%nat, scenario_broadcast) ∉ Single.calls c')
        ∧ ((3%nat, scenario_broadcast) ∉ Single.calls c')
    | _ => False
    end.
Proof.
  split; [reflexivity|]. vm_compute. repeat split.
  - intros H. apply list_elem_of_singleton in H. discriminate.
  - intros H. apply list_elem_of_singleton in H. discriminate.
Qed.

Lemma throwing_subscriber_ends_the_pass_witness :
  Single.synchronizeSubscribers single_three
  = [Some 1%nat] ++ (Some 2%nat :: [Some 3%nat])
  ∧ (∀ n, Some n ∈ [Some 1%nat] →
       Single.quiet (single_second_throws n) = true)
  ∧ Single.raises (single_second_throws 2) = Some "boom"
  ∧ (length [Some 1%nat] < 2)%nat
  ∧ ∃ c', Single.on_Synchronize single_second_throws 2 scenario_broadcast
            single_three = Some (c', JS.Threw "boom")
          ∧ Single.calls c' = [(1%nat, scenario_broadcast);
                               (2%nat, scenario_broadcast)]
          ∧ ∃ ns, Single.calls c'
                  = Single.calls single_three ++
                      ((λ n, (n, scenario_broadcast)) <$> ns)
                  ∧ pass_outcome (λ n, Single.raises (single_second_throws n))
                      ns (JS.Threw "boom").
Proof.
  assert (Hq : ∀ n, Some n ∈ [Some 1%nat] →
                 Single.quiet (single_second_throws n) = true).
  { intros n Hn. apply list_elem_of_singleton in Hn. by injection Hn as ->. }
  assert (Hfuel : (length [Some 1%nat] < 2)%nat) by (cbn; lia).
  repeat (split; [done|]).
  destruct (proj2 (proj2
                     (proj1 (throwing_subscriber_ends_the_pass
                               scenario_broadcast)
                        single_second_throws single_three 2%nat))
              [Some 1%nat] 2%nat [Some 3%nat] "boom" eq_refl Hq eq_refl Hfuel)
    as (c' & Hrun & Hcalls).
  exists c'. split; [exact Hrun|]. split; [exact Hcalls|].
  exact (proj1 (proj1 (throwing_subscriber_ends_the_pass scenario_broadcast)
                  single_second_throws single_three 2%nat) c' _ Hrun).
Defined.

(** ** Unsubscribing while a fan-out is running *)

Lemma insert_middle {A : Type} (l1 l2 : list A) (x y : A) :
  <[length l1 := y]> (l1 ++ x :: l2) = l1 ++ y :: l2.
Proof. induction l1 as [|z l1 IH]; cbn; [done|]. f_equal. exact IH. Qed.

(** In the single-channel client a subscriber removed during the pass,
    before its turn, is skipped, and all the others are still called. *)
Lemma Single_removed_in_pass_is_skipped behave (e : payload)
    (c : Single.SledgeClient) (fuel : nat)
    (pre mid post : list (option callback)) (a b : callback) :
  Single.synchronizeSubscribers c = pre ++ Some a :: mid ++ Some b :: post →
  (∀ n, Some n ∈ pre ++ mid ++ post → Single.quiet (behave n) = true) →
  Single.raises (behave a) = None →
  Single.does (behave a)
  = [Single.CallUnsubscribe
       (Single.DeleteSlot (length pre + 1 + length mid))] →
  (length (Single.synchronizeSubscribers c) < fuel)%nat →
  ∃ c', Single.on_Synchronize behave fuel e c = Some (c', JS.Returned)
        ∧ Single.calls c' = Single.calls c ++
            ((λ n, (n, e)) <$> omap id pre) ++ [(a, e)] ++
            ((λ n, (n, e)) <$> omap id mid) ++
            ((λ n, (n, e)) <$> omap id post)
        ∧ Single.synchronizeSubscribers c'
          = pre ++ Some a :: mid ++ None :: post.
Proof.
  intros Hl Hq Hra Hdo Hfuel. unfold Single.on_Synchronize.
  set (l0 := pre ++ Some a :: mid ++ Some b :: post) in *.
  set (l1 := pre ++ Some a :: mid ++ None :: post).
  assert (Hlen : length l0 = (length pre + S (length mid + S (length post)))%nat).
  { unfold l0. rewrite length_app. cbn. rewrite length_app. cbn. lia. }
  rewrite Hl, Hlen in Hfuel.
  destruct (for_of_advance Single.synchronizeSubscribers
              (Single.notify_if_present behave e) Single.calls
              (Single_entry e) (λ s, Single.synchronizeSubscribers s = l0)
              l0 (λ s H, H) pre) with (done := @nil (option callback))
              (rest := Some a :: mid ++ Some b :: post)
              (fuel := (fuel - length pre)%nat) (s := c)
    as (s1 & Hs1 & Hlog1 & Heq).
  { intros slot s Hin Hs. apply Single_invoke_quiet; [|done].
    intros n ->. apply Hq. apply elem_of_app. by left. }
  { done. }
  { done. }
  change (length (@nil (option callback))) with 0%nat in Heq.
  rewrite Nat.add_0_l in Heq.
  replace (length pre + (fuel - length pre))%nat with fuel in Heq by lia.
  rewrite Heq. clear Heq.
  destruct (fuel - length pre)%nat as [|fuel'] eqn:Hf; [lia|].
  cbn [JS.for_of]. rewrite Hs1. unfold l0 at 1.
  rewrite list_lookup_middle by done.
  cbn [Single.notify_if_present]. unfold Single.invoke, Single.finish.
  rewrite Hra, Hdo. cbn [fold_left Single.perform Single.call_unsubscribe].
  assert (Hdrop : drop (S (length pre)) l1 = mid ++ None :: post).
  { unfold l1.
    replace (pre ++ Some a :: mid ++ None :: post)
      with ((pre ++ [Some a]) ++ mid ++ None :: post)
      by (by rewrite <- app_assoc).
    apply drop_app_length'. rewrite length_app. cbn. lia. }
  destruct (for_of_returns_from Single.synchronizeSubscribers
              (Single.notify_if_present behave e) Single.calls
              (Single_entry e) (λ s, Single.synchronizeSubscribers s = l1)
              l1 (λ s H, H)) with (fuel := fuel') (i := S (length pre))
              (s := Single.with_subscribers
                      (<[(length pre + 1 + length mid)%nat := None]>
                         (Single.synchronizeSubscribers s1))
                      {| Single.core := Single.core s1;
                         Single.synchronizeSubscribers :=
                           Single.synchronizeSubscribers s1;
                         Single.calls := Single.calls s1 ++ [(a, e)] |})
    as (c' & Hrun & Hsubs & Hcalls).
  { intros slot s Hin Hs. apply Single_invoke_quiet; [|done].
    intros n ->. apply Hq. rewrite Hdrop in Hin.
    apply elem_of_app in Hin as [Hin|Hin].
    - apply elem_of_app. right. apply elem_of_app. by left.
    - apply elem_of_cons in Hin as [Hin|Hin]; [discriminate|].
      apply elem_of_app. right. apply elem_of_app. by right. }
  { cbn. rewrite Hs1. unfold l0, l1.
    replace (length pre + 1 + length mid)%nat
      with (length (pre ++ Some a :: mid))
      by (rewrite length_app; cbn; lia).
    replace (pre ++ Some a :: mid ++ Some b :: post)
      with ((pre ++ Some a :: mid) ++ Some b :: post)
      by (by rewrite <- app_assoc).
    rewrite insert_middle. by rewrite <- app_assoc. }
  { unfold l1. rewrite length_app. cbn. rewrite length_app. cbn. lia. }
  exists c'. split; [exact Hrun|]. split; [|exact Hsubs].
  rewrite Hcalls, Hdrop. cbn [Single.calls Single.with_subscribers].
  rewrite Hlog1, !Single_join_entries, omap_app. cbn.
  rewrite fmap_app. by rewrite <- !app_assoc.
Qed.

(** In a status pass of the two-channel client a subscriber removed
    during the pass, before its turn, is still called: the pass walks the
    array it started on, and only the field points at the filtered copy. *)
Lemma Dual_removed_in_status_pass_is_called hex behave
    (c : Dual.SledgeClient) (fuel : nat) (pre mid post : list callback)
    (a b : callback) :
  (Dual.statusSubscribers c < length (Dual.arrays c))%nat →
  Dual.status_subscribers c = pre ++ a :: mid ++ b :: post →
  (∀ n, n ∈ pre ++ mid ++ b :: post → Dual.quiet (behave n) = true) →
  Dual.raises (behave a) = None →
  Dual.does (behave a) = [Dual.CallUnsubscribe (Dual.FilterStatus b)] →
  (length (Dual.status_subscribers c) < fuel)%nat →
  ∃ c', Dual.dispatchStatus hex behave fuel c = Some (c', JS.Returned)
        ∧ Dual.calls c' = Dual.calls c ++
            ((λ d, Dual.StatusCall d (Dual.status c)) <$>
               (pre ++ a :: mid ++ b :: post))
        ∧ Dual.status_subscribers c'
          = filter (λ n, n ≠ b) (pre ++ a :: mid ++ b :: post).
Proof.
  intros Hvalid Hl Hq Hra Hdo Hfuel. unfold Dual.dispatchStatus. cbv zeta.
  set (a0 := Dual.statusSubscribers c) in *.
  set (F := λ (d : callback) (s : Dual.SledgeClient),
              Dual.invoke hex behave d (Dual.StatusCall d (Dual.status s)) s).
  set (mk := λ (d : callback) (s : Dual.SledgeClient),
               Dual.StatusCall d (Dual.status s)).
  unfold Dual.status_subscribers in Hl, Hfuel. fold a0 in Hl, Hfuel.
  rewrite Hl in Hfuel. rewrite length_app in Hfuel. cbn in Hfuel.
  rewrite length_app in Hfuel. cbn in Hfuel.
  destruct (Dual_fanout_advance hex behave (Dual.array_at a0) mk c
              (λ _ _, eq_refl) (λ _ _ _, eq_refl) pre
              (a :: mid ++ b :: post) (fuel - length pre)%nat Hl)
    as (k1 & Heq).
  { intros n Hn. apply Hq. apply elem_of_app. by left. }
  replace (length pre + (fuel - length pre))%nat with fuel in Heq by lia.
  unfold mk in Heq. cbv beta in Heq. fold F in Heq. rewrite Heq. clear Heq.
  destruct (fuel - length pre)%nat as [|fuel'] eqn:Hf; [lia|].
  set (s1 := Dual.with_core k1
               (Dual.with_calls
                  (Dual.calls c ++
                   ((λ n, Dual.StatusCall n (Dual.status c)) <$> pre)) c)).
  assert (Hs1 : Dual.array_at a0 s1 = pre ++ a :: mid ++ b :: post)
    by exact Hl.
  cbn [JS.for_of]. rewrite Hs1, list_lookup_middle by done.
  unfold F at 1. unfold Dual.invoke, Dual.finish. rewrite Hra, Hdo.
  cbn [fold_left Dual.perform].
  set (c2 := Dual.call_unsubscribe (Dual.FilterStatus b)
               (Dual.with_calls
                  (Dual.calls s1 ++ [Dual.StatusCall a (Dual.status s1)]) s1)).
  assert (Hc2 : Dual.array_at a0 c2 = pre ++ a :: mid ++ b :: post).
  { unfold Dual.array_at, c2. cbn.
    rewrite lookup_app_l by exact Hvalid. exact Hl. }
  destruct (Dual_fanout_quiet_from hex behave (Dual.array_at a0) mk c2
              (λ _ _, eq_refl) (λ _ _ _, eq_refl) fuel' (S (length pre)))
    as (c' & k & Hrun & ->).
  { rewrite Hc2.
    replace (pre ++ a :: mid ++ b :: post)
      with ((pre ++ [a]) ++ mid ++ b :: post) by (by rewrite <- app_assoc).
    rewrite drop_app_length' by (rewrite length_app; cbn; lia).
    intros n Hn. apply Hq. apply elem_of_app. by right. }
  { rewrite Hc2, length_app. cbn. rewrite length_app. cbn. lia. }
  unfold mk in Hrun. cbv beta in Hrun. fold F in Hrun. rewrite Hrun. eexists. split; [reflexivity|].
  rewrite Hc2.
  replace (drop (S (length pre)) (pre ++ a :: mid ++ b :: post))
    with (mid ++ b :: post).
  2: { replace (pre ++ a :: mid ++ b :: post)
         with ((pre ++ [a]) ++ mid ++ b :: post) by (by rewrite <- app_assoc).
       rewrite drop_app_length' by (rewrite length_app; cbn; lia). done. }
  split.
  - cbn. repeat (rewrite fmap_app || rewrite fmap_cons).
    by rewrite <- !app_assoc.
  - unfold Dual.status_subscribers, Dual.array_at. cbn.
    rewrite lookup_app_r, Nat.sub_diag by done. cbn.
    f_equal. exact Hl.
Qed.

(** The single-channel client on an example: with subscribers 1, 2, 3 and
    subscriber 1 removing subscriber 2, the pass calls 1 and 3. *)
Lemma single_channel_skips_removed_subscriber :
  match Single.on_Synchronize single_first_removes_second 10
          scenario_broadcast single_three with
  | Some (c', JS.Returned) =>
      Single.calls c' = [(1%nat, scenario_broadcast);
                         (3%nat, scenario_broadcast)]
      ∧ Single.synchronizeSubscribers c' = [Some 1; None; Some 3]%nat
  | _ => False
  end.
Proof. vm_compute. by split. Qed.

(** C8, at the input where the code departs from it.  Status subscribers 1
    and 2 are registered in that order and subscriber 1, when called, calls
    the unsubscribe closure of subscriber 2.  On [connect] the pass still
    calls subscriber 2, although it was removed before its turn: the closure
    points the field at a filtered copy, and [dispatchStatus] goes on
    walking the array it started on. *)
Theorem status_fanout_calls_removed_subscriber :
  Dual.status_subscribers dual_two_status = [1; 2]%nat
  ∧ match Dual.on_connect hex_of_example dual_first_removes_second 10
            dual_two_status with
    | Some (c', JS.Returned) =>
        Dual.calls c' = [Dual.StatusCall 1 Dual.Connected;
                         Dual.StatusCall 2 Dual.Connected]
        ∧ Dual.status_subscribers c' = [1%nat]
    | _ => False
    end.
Proof. split; [reflexivity|]. vm_compute. by split. Qed.

(** ** Subscribing and unsubscribing *)

Lemma filter_twice (notify : callback) (l : list callback) :
  filter (λ n, n ≠ notify) (filter (λ n, n ≠ notify) l)
  = filter (λ n, n ≠ notify) l.
Proof.
  induction l as [|x l IH]; [done|].
  rewrite filter_cons. case_decide; [|done].
  rewrite filter_cons. case_decide; [|done]. by rewrite IH.
Qed.

Lemma Dual_unsubscribe_filters (notify : callback) (c : Dual.SledgeClient) :
  Dual.status_subscribers (Dual.call_unsubscribe (Dual.FilterStatus notify) c)
  = filter (λ n, n ≠ notify) (Dual.status_subscribers c).
Proof.
  unfold Dual.status_subscribers at 1. unfold Dual.array_at. cbn.
  by rewrite lookup_app_r, Nat.sub_diag.
Qed.

(** C9 as stated fails: the two broadcast subscribe methods of the
    two-channel client return nothing. *)
Lemma sync_subscriptions_return_no_capability :
  snd (Dual.subscribeSyncAdmin 1 Dual.new) = Dual.Undefined
  ∧ snd (Dual.subscribeSyncShared 1 Dual.new) = Dual.Undefined
  ∧ ¬ (∃ u, snd (Dual.subscribeSyncAdmin 1 Dual.new) = Dual.Capability u).
Proof.
  split; [reflexivity|]. split; [reflexivity|]. by intros [u Hu].
Qed.

(** C9, amended.  Every subscribe method appends the callback to its
    subscriber sequence.  [subscribeSynchronize] of the single-channel
    client and [subscribeStatus] of the two-channel client return an
    unsubscribe closure; calling such a closure twice leaves the subscriber
    list as calling it once does (a slot emptied stays empty, a callback
    filtered out stays out).  [subscribeSyncShared] and [subscribeSyncAdmin]
    return nothing. *)
Theorem subscribe_appends_unsubscribe_idempotent (notify : callback) :
  (∀ c,
     Single.synchronizeSubscribers (fst (Single.subscribeSynchronize notify c))
     = Single.synchronizeSubscribers c ++ [Some notify]
     ∧ snd (Single.subscribeSynchronize notify c)
       = Single.DeleteSlot (length (Single.synchronizeSubscribers c))
     ∧ Single.synchronizeSubscribers
         (Single.call_unsubscribe (snd (Single.subscribeSynchronize notify c))
            (fst (Single.subscribeSynchronize notify c)))
       = Single.synchronizeSubscribers c ++ [None])
  ∧ (∀ u c,
       Single.call_unsubscribe u (Single.call_unsubscribe u c)
       = Single.call_unsubscribe u c)
  ∧ (∀ c,
       (Dual.statusSubscribers c < length (Dual.arrays c))%nat →
       Dual.status_subscribers (fst (Dual.subscribeStatus notify c))
       = Dual.status_subscribers c ++ [notify]
       ∧ snd (Dual.subscribeStatus notify c)
         = Dual.Capability (Dual.FilterStatus notify))
  ∧ (∀ c,
       Dual.status_subscribers
         (Dual.call_unsubscribe (Dual.FilterStatus notify) c)
       = filter (λ n, n ≠ notify) (Dual.status_subscribers c)
       ∧ Dual.status_subscribers
           (Dual.call_unsubscribe (Dual.FilterStatus notify)
              (Dual.call_unsubscribe (Dual.FilterStatus notify) c))
         = Dual.status_subscribers
             (Dual.call_unsubscribe (Dual.FilterStatus notify) c))
  ∧ (∀ c,
       Dual.syncSharedSubs (fst (Dual.subscribeSyncShared notify c))
       = Dual.syncSharedSubs c ++ [notify]
       ∧ snd (Dual.subscribeSyncShared notify c) = Dual.Undefined)
  ∧ (∀ c,
       Dual.syncAdminSubs (fst (Dual.subscribeSyncAdmin notify c))
       = Dual.syncAdminSubs c ++ [notify]
       ∧ snd (Dual.subscribeSyncAdmin notify c) = Dual.Undefined).
Proof.
  split; [|split; [|split; [|split; [|split]]]].
  - intros c. split; [done|]. split; [done|]. cbn.
    by rewrite insert_app_r_alt, Nat.sub_diag.
  - intros [i] c. unfold Single.call_unsubscribe, Single.with_subscribers.
    cbn. by rewrite list_insert_insert_eq.
  - intros c Hvalid. split; [|done].
    unfold Dual.status_subscribers, Dual.array_at. cbn.
    rewrite list_lookup_alter_eq.
    destruct (Dual.arrays c !! Dual.statusSubscribers c) as [l|] eqn:Hl;
      [done|].
    apply lookup_ge_None_1 in Hl. lia.
  - intros c. split; [apply Dual_unsubscribe_filters|].
    rewrite !Dual_unsubscribe_filters. apply filter_twice.
  - by intros c.
  - by intros c.
Qed.

Lemma subscribe_appends_unsubscribe_idempotent_witness :
  (Dual.statusSubscribers Dual.new < length (Dual.arrays Dual.new))%nat
  ∧ Dual.status_subscribers (fst (Dual.subscribeStatus 7 Dual.new)) = [7%nat]
  ∧ snd (Dual.subscribeStatus 7 Dual.new)
    = Dual.Capability (Dual.FilterStatus 7).
Proof.
  assert (H : (Dual.statusSubscribers Dual.new
               < length (Dual.arrays Dual.new))%nat) by (cbn; lia).
  split; [exact H|].
  exact (proj1 (proj2 (proj2
           (subscribe_appends_unsubscribe_idempotent 7%nat))) Dual.new H).
Defined.

(** ** The hack table *)

(** C10.  For every hack and database, [addHack] throws and leaves the
    database as it was, so no row reaches [hacks] and [location] is never
    written by it: the statement text declares three placeholders, the
    array handed to [run] has two values, and the driver refuses the
    binding before the engine is asked to step the statement. *)
Theorem addHack_always_throws
    (execute : string → list Persistence.sqlvalue → Persistence.Database →
               Persistence.Database * JS.completion)
    (hack : Persistence.Hack) (db : Persistence.Database) :
  Persistence.parameters (Persistence.prepare Persistence.addHack_sql) = 3%nat
  ∧ length (Persistence.addHack_bound hack) = 2%nat
  ∧ Persistence.addHack execute hack db
    = (db, JS.Threw "Too few parameter values were provided")
  ∧ Persistence.hacks (fst (Persistence.addHack execute hack db))
    = Persistence.hacks db.
Proof. repeat split. Qed.

(** By contrast [addJudge] binds two values to two placeholders and the
    engine runs the statement. *)
Lemma addJudge_reaches_the_engine
    (execute : string → list Persistence.sqlvalue → Persistence.Database →
               Persistence.Database * JS.completion)
    (judge : Persistence.Judge) (db : Persistence.Database) :
  Persistence.addJudge execute judge db
  = execute Persistence.addJudge_sql
      [Persistence.SqlText (Persistence.judge_name judge);
       Persistence.SqlText (Persistence.judge_email judge)] db.
Proof. reflexivity. Qed.

(** * Further properties of the code *)

(** ** The pending-request table over time *)

(** X1.  In every state the client can reach, each resolver held by the
    pending-request table belongs to a promise that is still pending, two
    different tokens never hold the resolver of the same promise, and no
    promise has been settled more than once. *)
Theorem table_holds_pending_and_distinct_handles
    (gen : Z -> Q -> string) (k : Core) :
  reachable gen k →
  (∀ t p, responseResolvers k !! t = Some p → promises k !! p = Some Pending)
  ∧ (∀ t1 t2 p,
       responseResolvers k !! t1 = Some p →
       responseResolvers k !! t2 = Some p → t1 = t2)
  ∧ (∀ p, (settle_count p (trace k) ≤ 1)%nat).
Proof.
  intros Hreach. apply reachable_wf in Hreach as [Hp Hi Hc Hl].
  split; [exact Hp|]. split; [exact Hi|].
  intros p. rewrite Hc. destruct (promises k !! p) as [[|r]|]; lia.
Qed.

Lemma table_holds_pending_and_distinct_handles_witness :
  reachable Single.generateUniqueReturnId scenario_core
  ∧ promises scenario_core !! 0%nat = Some Pending.
Proof.
  assert (H : reachable Single.generateUniqueReturnId scenario_core)
    by (eexists; reflexivity).
  split; [exact H|].
  apply (proj1 (table_holds_pending_and_distinct_handles _ _ H)
           (Single.generateUniqueReturnId scenario_now scenario_rnd)).
  vm_compute. reflexivity.
Defined.

(** X2.  A fulfilled promise is final: whatever is sent or received
    afterwards, it keeps the response it was fulfilled with. *)
Theorem fulfilled_handle_is_final
    (gen : Z -> Q -> string) (k : Core) (p : nat) (r : Response)
    (later : list input) :
  promises k !! p = Some (Fulfilled r) →
  promises (run gen k later) !! p = Some (Fulfilled r).
Proof. apply fulfilled_run. Qed.

Lemma fulfilled_handle_is_final_witness :
  promises (fst (on_response scenario_response scenario_core)) !! 0%nat
  = Some (Fulfilled scenario_response)
  ∧ promises
      (run Single.generateUniqueReturnId
         (fst (on_response scenario_response scenario_core))
         [GotResponse scenario_response;
          DoSend scenario_now scenario_rnd "Login" []]) !! 0%nat
    = Some (Fulfilled scenario_response).
Proof.
  assert (H : promises (fst (on_response scenario_response scenario_core))
              !! 0%nat = Some (Fulfilled scenario_response))
    by (vm_compute; reflexivity).
  split; [exact H|].
  exact (fulfilled_handle_is_final Single.generateUniqueReturnId _ _ _
           [GotResponse scenario_response;
            DoSend scenario_now scenario_rnd "Login" []] H).
Defined.

(** X3.  A response delivered twice: the first delivery consumes the
    entry, so the second one finds none, throws, and changes nothing. *)
Theorem duplicate_response_is_rejected (k : Core) (data : Response) (p : nat) :
  responseResolvers k !! returnId data = Some p →
  on_response data (fst (on_response data k))
  = (fst (on_response data k),
     JS.Threw ("Got response with unknown returnId: " +:+ returnId data)).
Proof.
  intros Ht. apply on_response_unknown.
  unfold on_response. rewrite Ht. cbn.
  apply lookup_delete_eq.
Qed.

Lemma duplicate_response_is_rejected_witness :
  responseResolvers scenario_core !! returnId scenario_response = Some 0%nat
  ∧ snd (on_response scenario_response
           (fst (on_response scenario_response scenario_core)))
    = JS.Threw "Got response with unknown returnId: -301a9780".
Proof.
  assert (H : responseResolvers scenario_core !! returnId scenario_response
              = Some 0%nat) by (vm_compute; reflexivity).
  split; [exact H|].
  rewrite (duplicate_response_is_rejected _ _ _ H). reflexivity.
Defined.

(** X4.  A send followed by the response that echoes its token: the
    listener returns normally, the promise the send returned is fulfilled
    with that response, every older promise is as before, and the table is
    the old table without that token (so it is the old table when the token
    was not pending, and an older entry under the same token is gone too). *)
Theorem send_then_response_round_trip
    (gen : Z -> Q -> string) (now : Z) (rnd : Q) (n : string) (d body : payload)
    (k : Core) :
  let sent := sendAndAwait gen now rnd n d k in
  let resp := {| returnId := gen now rnd; res_body := body |} in
  snd (on_response resp (fst sent)) = JS.Returned
  ∧ promises (fst (on_response resp (fst sent)))
    = promises k ++ [Fulfilled resp]
  ∧ promises (fst (on_response resp (fst sent))) !! snd sent
    = Some (Fulfilled resp)
  ∧ responseResolvers (fst (on_response resp (fst sent)))
    = delete (gen now rnd) (responseResolvers k)
  ∧ (responseResolvers k !! gen now rnd = None →
     responseResolvers (fst (on_response resp (fst sent)))
     = responseResolvers k).
Proof.
  cbv zeta. rewrite sendAndAwait_effects. cbn [fst snd].
  rewrite on_response_known with (p := length (promises k)); cbn.
  - assert (Hins : <[length (promises k) := Fulfilled
                      {| returnId := gen now rnd; res_body := body |}]>
                     (promises k ++ [Pending])
                   = promises k ++
                     [Fulfilled {| returnId := gen now rnd; res_body := body |}]).
    { rewrite insert_app_r_alt, Nat.sub_diag by done. done. }
    rewrite Hins. repeat split.
    + by rewrite lookup_app_r, Nat.sub_diag.
    + by rewrite delete_insert_eq.
    + intros Hnone. rewrite delete_insert_eq. by apply delete_id.
  - apply lookup_insert_eq.
  - by rewrite lookup_app_r, Nat.sub_diag.
Qed.

Lemma step_keeps_other_entries (gen : Z -> Q -> string) (k : Core)
    (i : input) (t : string) :
  input_token gen i ≠ t →
  responseResolvers (step gen k i) !! t = responseResolvers k !! t.
Proof.
  intros Hne. destruct i as [now rnd n d|data]; cbn in Hne |- *.
  - by rewrite lookup_insert_ne.
  - unfold on_response.
    destruct (responseResolvers k !! returnId data) as [q|]; [|done].
    cbn. rewrite lookup_delete_ne by done. unfold resolve.
    by destruct (promises k !! q) as [[|r]|].
Qed.

(** X5.  There is no timeout: a request whose token is not answered stays
    in the table, and its promise stays pending, through any number of
    sends that draw other tokens and responses that echo other tokens. *)
Theorem unanswered_request_stays_pending
    (gen : Z -> Q -> string) (k : Core) (t : string) (p : nat)
    (later : list input) :
  reachable gen k →
  responseResolvers k !! t = Some p →
  Forall (λ i, input_token gen i ≠ t) later →
  responseResolvers (run gen k later) !! t = Some p
  ∧ promises (run gen k later) !! p = Some Pending.
Proof.
  intros Hreach Ht Hlater.
  assert (Hkeep : responseResolvers (run gen k later) !! t = Some p).
  { clear Hreach. revert k Ht.
    induction Hlater as [|i later Hi _ IH]; intros k Ht; [done|].
    cbn. apply IH. by rewrite step_keeps_other_entries. }
  split; [exact Hkeep|].
  apply reachable_wf in Hreach. apply (wf_run gen later) in Hreach.
  by apply (wf_pending _ Hreach t).
Qed.

Lemma unanswered_request_stays_pending_witness :
  reachable Single.generateUniqueReturnId scenario_core
  ∧ responseResolvers scenario_core !! "-301a9780" = Some 0%nat
  ∧ promises
      (run Single.generateUniqueReturnId scenario_core
         [GotResponse {| returnId := "deadbeef"; res_body := [] |};
          DoSend (scenario_now + 256) scenario_rnd "Login" []]) !! 0%nat
    = Some Pending.
Proof.
  assert (H1 : reachable Single.generateUniqueReturnId scenario_core)
    by (eexists; reflexivity).
  assert (H2 : responseResolvers scenario_core !! "-301a9780" = Some 0%nat)
    by (vm_compute; reflexivity).
  split; [exact H1|]. split; [exact H2|].
  apply (unanswered_request_stays_pending Single.generateUniqueReturnId
           scenario_core "-301a9780" 0%nat
           [GotResponse {| returnId := "deadbeef"; res_body := [] |};
            DoSend (scenario_now + 256) scenario_rnd "Login" []] H1 H2).
  repeat constructor; vm_compute; discriminate.
Defined.

Lemma step_keeps_orphan (gen : Z -> Q -> string) (k : Core) (i : input)
    (p : nat) :
  orphaned p k → orphaned p (step gen k i).
Proof.
  intros [Hp Hfree]. pose proof (lookup_lt_Some _ _ _ Hp) as Hlt.
  destruct i as [now rnd n d|data]; cbn.
  - split; cbn.
    + by rewrite lookup_app_l.
    + intros t. rewrite lookup_insert. case_decide; [|apply Hfree].
      intros [= Heq]. lia.
  - unfold on_response.
    destruct (responseResolvers k !! returnId data) as [q|] eqn:Hq;
      [|by split].
    assert (Hne : q ≠ p) by (intros ->; by apply (Hfree (returnId data))).
    unfold resolve. destruct (promises k !! q) as [[|r]|]; split; cbn;
      try done;
      try (by rewrite list_lookup_insert_ne);
      intros t; rewrite lookup_delete; case_decide; try done; apply Hfree.
Qed.

(** X6.  When a send draws a token that is already pending, the new
    resolver replaces the old one in the table, and the promise of the
    earlier send can never be settled: it stays pending through everything
    that is sent or received afterwards. *)
Theorem reused_token_orphans_earlier_handle
    (gen : Z -> Q -> string) (k : Core) (now : Z) (rnd : Q) (n : string)
    (d : payload) (p0 : nat) (later : list input) :
  reachable gen k →
  responseResolvers k !! gen now rnd = Some p0 →
  let k1 := fst (sendAndAwait gen now rnd n d k) in
  responseResolvers k1 !! gen now rnd = Some (length (promises k))
  ∧ length (promises k) ≠ p0
  ∧ promises (run gen k1 later) !! p0 = Some Pending.
Proof.
  intros Hreach Ht. cbv zeta. rewrite sendAndAwait_effects. cbn [fst].
  apply reachable_wf in Hreach as [Hp Hi Hc Hl].
  pose proof (Hp _ _ Ht) as Hp0.
  pose proof (lookup_lt_Some _ _ _ Hp0) as Hlt.
  split; [cbn; apply lookup_insert_eq|]. split; [lia|].
  assert (Horph : ∀ ins k', orphaned p0 k' →
                    promises (run gen k' ins) !! p0 = Some Pending).
  { induction ins as [|i ins IH]; intros k' Hk'; [apply Hk'|].
    cbn. apply IH. by apply step_keeps_orphan. }
  apply Horph. split; cbn.
  - by rewrite lookup_app_l.
  - intros t. rewrite lookup_insert. case_decide.
    + intros [= Heq]. lia.
    + intros Ht'. by specialize (Hi _ _ _ Ht Ht').
Qed.

Lemma reused_token_orphans_earlier_handle_witness :
  reachable Single.generateUniqueReturnId scenario_core
  ∧ responseResolvers scenario_core
      !! Single.generateUniqueReturnId scenario_now (501 # 1000)
    = Some 0%nat
  ∧ promises
      (run Single.generateUniqueReturnId
         (fst (sendAndAwait Single.generateUniqueReturnId scenario_now
                 (501 # 1000) "Login" [] scenario_core))
         [GotResponse scenario_response]) !! 0%nat
    = Some Pending.
Proof.
  assert (H1 : reachable Single.generateUniqueReturnId scenario_core)
    by (eexists; reflexivity).
  assert (H2 : responseResolvers scenario_core
                 !! Single.generateUniqueReturnId scenario_now (501 # 1000)
               = Some 0%nat) by (vm_compute; reflexivity).
  split; [exact H1|]. split; [exact H2|].
  exact (proj2 (proj2 (reused_token_orphans_earlier_handle
           Single.generateUniqueReturnId scenario_core scenario_now
           (501 # 1000) "Login" [] 0%nat [GotResponse scenario_response]
           H1 H2))).
Defined.

(** ** What a single-channel token depends on *)

Lemma land_lnot_255 (x : Z) : Z.land x (Z.lnot 255) = 256 * (x / 256).
Proof.
  change 255 with (Z.ones 8). rewrite <- Z.ldiff_land.
  rewrite Z.ldiff_ones_r by lia.
  rewrite Z.shiftl_mul_pow2, Z.shiftr_div_pow2 by lia.
  change (2 ^ 8) with 256. lia.
Qed.

Lemma ToInt32_div_256 (now : Z) :
  JS.ToInt32 now / 256 = token_window now - 2 ^ 23.
Proof.
  unfold JS.ToInt32, token_window.
  change (2 ^ 31) with 2147483648. change (2 ^ 32) with 4294967296.
  change (2 ^ 23) with 8388608. change (2 ^ 24) with 16777216.
  Z.div_mod_to_equations. lia.
Qed.

Lemma floor_times_256_range (r : Q) :
  (0 <= r)%Q → (r < 1)%Q → 0 ≤ JS.floor_times_256 r < 256.
Proof.
  intros H0 H1. unfold JS.floor_times_256. split.
  - change 0 with (Qfloor 0). apply Qfloor_resp_le.
    apply Qmult_le_0_compat; [exact H0|discriminate].
  - rewrite Zlt_Qlt. eapply Qle_lt_trans; [apply Qfloor_le|].
    change (inject_Z 256) with (1 * 256)%Q.
    apply Qmult_lt_compat_r; [reflexivity|exact H1].
Qed.

Lemma Single_token_eq_general (now1 now2 : Z) (r1 r2 : Q) :
  (0 <= r1)%Q → (r1 < 1)%Q → (0 <= r2)%Q → (r2 < 1)%Q →
  Single.generateUniqueReturnId now1 r1 = Single.generateUniqueReturnId now2 r2
  ↔ token_window now1 = token_window now2
    ∧ JS.floor_times_256 r1 = JS.floor_times_256 r2.
Proof.
  intros H1 H1' H2 H2'.
  pose proof (floor_times_256_range r1 H1 H1') as Hb1.
  pose proof (floor_times_256_range r2 H2 H2') as Hb2.
  unfold Single.generateUniqueReturnId.
  rewrite !land_lnot_255, !ToInt32_div_256. split.
  - intros H. apply Number_toString16_inj in H. lia.
  - intros [-> ->]. reflexivity.
Qed.

Lemma token_window_period (now : Z) :
  token_window (now + 2 ^ 32) = token_window now.
Proof.
  unfold token_window.
  change (2 ^ 32) with 4294967296.
  change (2 ^ 23) with 8388608. change (2 ^ 24) with 16777216.
  Z.div_mod_to_equations. lia.
Qed.

(** X7.  What a single-channel token depends on.  For random draws in
    [0,1), two tokens are equal exactly when the two clock readings fall in
    the same 256 ms window, counted modulo 2^32 ms, and the two draws give
    the same [Math.floor(r*256)].  So two readings in one window contribute
    nothing to telling the tokens apart, and a reading 2^32 ms later gives
    the same token for the same draw. *)
Theorem single_channel_token_content (now1 now2 : Z) (r1 r2 : Q) :
  (0 <= r1)%Q → (r1 < 1)%Q → (0 <= r2)%Q → (r2 < 1)%Q →
  (Single.generateUniqueReturnId now1 r1
   = Single.generateUniqueReturnId now2 r2
   ↔ token_window now1 = token_window now2
     ∧ JS.floor_times_256 r1 = JS.floor_times_256 r2)
  ∧ (now1 / 256 = now2 / 256 →
     JS.floor_times_256 r1 = JS.floor_times_256 r2 →
     Single.generateUniqueReturnId now1 r1
     = Single.generateUniqueReturnId now2 r2)
  ∧ Single.generateUniqueReturnId (now1 + 2 ^ 32) r1
    = Single.generateUniqueReturnId now1 r1.
Proof.
  intros H1 H1' H2 H2'.
  pose proof (Single_token_eq_general now1 now2 r1 r2 H1 H1' H2 H2') as Hiff.
  split; [exact Hiff|]. split.
  - intros Hw Hb. apply Hiff. split; [|exact Hb].
    unfold token_window. by rewrite Hw.
  - apply (Single_token_eq_general (now1 + 2 ^ 32) now1 r1 r1); try done.
    split; [apply token_window_period|done].
Qed.

Lemma single_channel_token_content_witness :
  (0 <= 1 # 2)%Q ∧ (1 # 2 < 1)%Q ∧ (0 <= 501 # 1000)%Q ∧ (501 # 1000 < 1)%Q
  ∧ Single.generateUniqueReturnId (scenario_now + 2 ^ 32) (1 # 2)
    = Single.generateUniqueReturnId scenario_now (1 # 2).
Proof.
  assert (H1 : (0 <= 1 # 2)%Q) by discriminate.
  assert (H2 : (1 # 2 < 1)%Q) by reflexivity.
  assert (H3 : (0 <= 501 # 1000)%Q) by discriminate.
  assert (H4 : (501 # 1000 < 1)%Q) by reflexivity.
  repeat (split; [assumption|]).
  exact (proj2 (proj2 (single_channel_token_content scenario_now scenario_now
                         (1 # 2) (501 # 1000) H1 H2 H3 H4))).
Defined.

(** ** What a two-channel token depends on *)

Lemma append_cons (ch : ascii) (a b : string) :
  String ch a +:+ b = String ch (a +:+ b).
Proof. reflexivity. Qed.

Lemma append_assoc (a b c : string) : (a +:+ b) +:+ c = a +:+ (b +:+ c).
Proof.
  induction a as [|ch a IH]; [done|]. rewrite !append_cons. by rewrite IH.
Qed.

Lemma append_length (a b : string) :
  String.length (a +:+ b) = (String.length a + String.length b)%nat.
Proof.
  induction a as [|ch a IH]; [done|]. rewrite append_cons. cbn.
  by rewrite IH.
Qed.

Lemma append_nil_r (a : string) : a +:+ "" = a.
Proof.
  induction a as [|ch a IH]; [done|]. rewrite append_cons. by rewrite IH.
Qed.

Lemma of_pos_rest :
  ∀ (p : positive) (rest : string),
    HexString.Raw.of_pos p rest = HexString.Raw.of_pos p "" +:+ rest.
Proof.
  fix IH 1. intros p rest.
  do 4 try destruct p as [p|p|]; try reflexivity;
    cbn [HexString.Raw.of_pos];
    rewrite (IH p (String _ rest)), (IH p (String _ ""));
    by rewrite append_assoc.
Qed.

Lemma toString16_last_digit (n d : Z) :
  (1 ≤ n)%Z → (0 ≤ d < 16)%Z →
  JS.Number_toString16 (16 * n + d) = JS.Number_toString16 n +:+ hex_digit d.
Proof.
  intros Hn Hd. destruct n as [|p|p]; try lia.
  assert (Hcases : d = 0 ∨ d = 1 ∨ d = 2 ∨ d = 3 ∨ d = 4 ∨ d = 5 ∨ d = 6
                   ∨ d = 7 ∨ d = 8 ∨ d = 9 ∨ d = 10 ∨ d = 11 ∨ d = 12
                   ∨ d = 13 ∨ d = 14 ∨ d = 15) by lia.
  repeat (destruct Hcases as [->|Hcases]); [..|subst d];
    match goal with
    | |- _ = _ +:+ hex_digit ?D => exact (of_pos_rest p (hex_digit D))
    end.
Qed.

Lemma low_digits_length (k : nat) : ∀ n, String.length (low_digits k n) = k.
Proof.
  induction k as [|k IH]; intros n; cbn [low_digits]; [done|].
  rewrite append_length, IH.
  assert (Hd : String.length (hex_digit (n mod 16)) = 1%nat).
  { unfold hex_digit. by repeat case_match. }
  rewrite Hd. lia.
Qed.

Lemma toString16_low_digits (k : nat) :
  ∀ n, (16 ^ Z.of_nat k ≤ n)%Z →
    JS.Number_toString16 n
    = JS.Number_toString16 (n / 16 ^ Z.of_nat k) +:+ low_digits k n.
Proof.
  induction k as [|k IH]; intros n Hn.
  - cbn. by rewrite Z.div_1_r, append_nil_r.
  - rewrite Nat2Z.inj_succ, Z.pow_succ_r in Hn |- * by lia.
    assert (Hpos : 0 < 16 ^ Z.of_nat k) by (apply Z.pow_pos_nonneg; lia).
    cbn [low_digits]. rewrite <- append_assoc.
    rewrite <- Z.div_div by lia.
    rewrite <- IH.
    + rewrite <- toString16_last_digit.
      * f_equal. pose proof (Z.div_mod n 16). lia.
      * apply Z.div_le_lower_bound; lia.
      * apply Z.mod_pos_bound. lia.
    + apply Z.div_le_lower_bound; lia.
Qed.

Lemma substring_all (b : string) : substring 0 (String.length b) b = b.
Proof. induction b as [|ch b IH]; cbn; [done|]. by rewrite IH. Qed.

Lemma substring_append_r (a b : string) :
  substring (String.length a) (String.length b) (a +:+ b) = b.
Proof.
  induction a as [|ch a IH]; [exact (substring_all b)|].
  rewrite append_cons. exact IH.
Qed.

Lemma slice_last_append (a b : string) :
  JS.slice_last (String.length b) (a +:+ b) = b.
Proof.
  unfold JS.slice_last. rewrite append_length.
  replace (String.length a + String.length b - String.length b)%nat
    with (String.length a) by lia.
  apply substring_append_r.
Qed.

Lemma low_digits_period (k : nat) :
  ∀ n j, low_digits k (n + j * 16 ^ Z.of_nat k) = low_digits k n.
Proof.
  induction k as [|k IH]; intros n j; cbn [low_digits]; [done|].
  rewrite Nat2Z.inj_succ, Z.pow_succ_r by lia.
  replace (n + j * (16 * 16 ^ Z.of_nat k))
    with (n + (j * 16 ^ Z.of_nat k) * 16) by lia.
  rewrite Z.div_add, Z_mod_plus_full by lia. by rewrite IH.
Qed.

Lemma slice_last_6_toString16 (n : Z) :
  (2 ^ 24 ≤ n)%Z → JS.slice_last 6 (JS.Number_toString16 n) = low_digits 6 n.
Proof.
  intros Hn. rewrite (toString16_low_digits 6 n) by exact Hn.
  rewrite <- (low_digits_length 6 n) at 1. apply slice_last_append.
Qed.

(** X8.  What a two-channel token depends on.  For a clock reading of at
    least 2^24 ms (any real one), the token is the six lowest base-16
    digits of the reading followed by the last six characters of the random
    number's rendering.  So the clock enters only modulo 2^24 ms: two
    readings that agree modulo 2^24 give the same token for the same draw,
    in particular a reading 2^24 ms (about 4.7 hours) later. *)
Theorem two_channel_token_content
    (hex : Q → string) (now1 now2 : Z) (r : Q) :
  (2 ^ 24 ≤ now1)%Z → (2 ^ 24 ≤ now2)%Z →
  Dual.generateUniqueReturnId hex now1 r
  = low_digits 6 now1 +:+ JS.slice_last 6 (hex r)
  ∧ (now1 mod 2 ^ 24 = now2 mod 2 ^ 24 →
     Dual.generateUniqueReturnId hex now1 r
     = Dual.generateUniqueReturnId hex now2 r)
  ∧ Dual.generateUniqueReturnId hex (now1 + 2 ^ 24) r
    = Dual.generateUniqueReturnId hex now1 r.
Proof.
  intros H1 H2. unfold Dual.generateUniqueReturnId.
  rewrite !slice_last_6_toString16 by lia.
  split; [done|]. split.
  - intros Hmod. f_equal.
    pose proof (Z.div_mod now1 (2 ^ 24)) as E1.
    pose proof (Z.div_mod now2 (2 ^ 24)) as E2.
    replace now1
      with (now2 + (now1 / 2 ^ 24 - now2 / 2 ^ 24) * 16 ^ Z.of_nat 6).
    + apply low_digits_period.
    + change (16 ^ Z.of_nat 6) with (2 ^ 24). lia.
  - f_equal. apply (low_digits_period 6 now1 1).
Qed.

Lemma two_channel_token_content_witness :
  (2 ^ 24 ≤ scenario_now)%Z ∧ (2 ^ 24 ≤ scenario_now + 5 * 2 ^ 24)%Z
  ∧ Dual.generateUniqueReturnId hex_of_example scenario_now scenario_rnd
    = "e568000.8"
  ∧ Dual.generateUniqueReturnId hex_of_example scenario_now scenario_rnd
    = Dual.generateUniqueReturnId hex_of_example
        (scenario_now + 5 * 2 ^ 24) scenario_rnd.
Proof.
  assert (H1 : (2 ^ 24 ≤ scenario_now)%Z) by (vm_compute; discriminate).
  assert (H2 : (2 ^ 24 ≤ scenario_now + 5 * 2 ^ 24)%Z)
    by (vm_compute; discriminate).
  split; [exact H1|]. split; [exact H2|].
  destruct (two_channel_token_content hex_of_example scenario_now
              (scenario_now + 5 * 2 ^ 24) scenario_rnd H1 H2)
    as (Heq & Hsame & _).
  split; [rewrite Heq; vm_compute; reflexivity|].
  apply Hsame. vm_compute. reflexivity.
Defined.

(** ** What a fan-out can and cannot do *)

Lemma for_of_preserves {St A : Type} (arr : St → list A)
    (body : A → St → St * JS.completion) (P : St → Prop) :
  (∀ x s, P s → P (fst (body x s))) →
  ∀ fuel i s r, P s → JS.for_of arr body fuel i s = Some r → P (fst r).
Proof.
  intros Hbody. induction fuel as [|fuel IH]; intros i s r Hs Hrun;
    [discriminate|].
  cbn [JS.for_of] in Hrun. destruct (arr s !! i) as [x|].
  - specialize (Hbody x s Hs). destruct (body x s) as [s' [|m]].
    + by apply (IH (S i) s').
    + by injection Hrun as <-.
  - by injection Hrun as <-.
Qed.

Lemma for_of_runs_on {St A : Type} (arr : St → list A)
    (body : A → St → St * JS.completion) (R : nat → St → Prop) :
  (∀ i s, R i s →
     ∃ x s', arr s !! i = Some x ∧ body x s = (s', JS.Returned)
             ∧ R (S i) s') →
  ∀ fuel i s, R i s → JS.for_of arr body fuel i s = None.
Proof.
  intros Hstep. induction fuel as [|fuel IH]; intros i s Hs; [done|].
  cbn [JS.for_of]. destruct (Hstep i s Hs) as (x & s' & -> & -> & Hs').
  by apply IH.
Qed.

(** X9.  The connection status of the two-channel client is untouched by
    everything except the three lifecycle listeners: a send, a response
    (answered or unknown), a subscription, an unsubscription and a
    broadcast fan-out, whatever its subscribers do and however it ends,
    leave the status as it was. *)
Theorem only_lifecycle_events_change_status
    (hex : Q → string) (behave : callback → Dual.behaviour)
    (c : Dual.SledgeClient) :
  (∀ now rnd n d,
     Dual.status (fst (Dual.sendAndAwait hex now rnd n d c)) = Dual.status c)
  ∧ (∀ data, Dual.status (fst (Dual.on_response data c)) = Dual.status c)
  ∧ (∀ notify,
       Dual.status (fst (Dual.subscribeStatus notify c)) = Dual.status c
       ∧ Dual.status (fst (Dual.subscribeSyncShared notify c)) = Dual.status c
       ∧ Dual.status (fst (Dual.subscribeSyncAdmin notify c)) = Dual.status c)
  ∧ (∀ u, Dual.status (Dual.call_unsubscribe u c) = Dual.status c)
  ∧ (∀ fuel e r,
       Dual.on_SynchronizeShared hex behave fuel e c = Some r →
       Dual.status (fst r) = Dual.status c)
  ∧ (∀ fuel e r,
       Dual.on_SynchronizeAdmin hex behave fuel e c = Some r →
       Dual.status (fst r) = Dual.status c).
Proof.
  assert (Hinvoke : ∀ e (x : callback) (s : Dual.SledgeClient),
            Dual.status s = Dual.status c →
            Dual.status (fst (Dual.invoke hex behave x (Dual.SyncCall x e) s))
            = Dual.status c).
  { intros e x s Hs. unfold Dual.invoke. cbn [fst].
    by rewrite Dual_perform_status. }
  split; [|split; [|split; [|split; [|split]]]].
  - intros now rnd n d. unfold Dual.sendAndAwait.
    by rewrite sendAndAwait_effects.
  - intros data. unfold Dual.on_response.
    by destruct (on_response data (Dual.core c)).
  - by intros notify.
  - by intros [notify].
  - intros fuel e r Hrun. unfold Dual.on_SynchronizeShared in Hrun.
    by apply (for_of_preserves _ _ (λ s, Dual.status s = Dual.status c)
                (Hinvoke e) _ _ _ _ eq_refl Hrun).
  - intros fuel e r Hrun. unfold Dual.on_SynchronizeAdmin in Hrun.
    by apply (for_of_preserves _ _ (λ s, Dual.status s = Dual.status c)
                (Hinvoke e) _ _ _ _ eq_refl Hrun).
Qed.

Lemma only_lifecycle_events_change_status_witness :
  ∃ r,
    Dual.on_SynchronizeShared hex_of_example dual_polite 10
      scenario_broadcast dual_three_shared = Some r
    ∧ Dual.status (fst r) = Dual.Connecting.
Proof.
  destruct (Dual.on_SynchronizeShared hex_of_example dual_polite 10
              scenario_broadcast dual_three_shared) as [r|] eqn:Hrun.
  - exists r. split; [reflexivity|].
    exact (proj1 (proj2 (proj2 (proj2 (proj2
             (only_lifecycle_events_change_status hex_of_example dual_polite
                dual_three_shared))))) 10%nat scenario_broadcast r Hrun).
  - vm_compute in Hrun. discriminate.
Defined.

(** X10.  A subscriber that subscribes itself again each time it is called
    keeps the "Synchronize" pass of the single-channel client from ever
    ending: each call appends a slot the loop will reach, so no number of
    steps completes the loop, and the listener neither returns nor throws.
    (The other subscribers are taken to return normally and not to touch
    the subscriptions.) *)
Theorem resubscribing_subscriber_never_lets_the_pass_end
    (behave : callback → Single.behaviour) (e : payload)
    (c : Single.SledgeClient) (pre post : list (option callback))
    (n : callback) :
  Single.synchronizeSubscribers c = pre ++ Some n :: post →
  (∀ m, Some m ∈ pre ++ post → m = n ∨ Single.quiet (behave m) = true) →
  Single.does (behave n) = [Single.CallSubscribe n] →
  Single.raises (behave n) = None →
  ∀ fuel, Single.on_Synchronize behave fuel e c = None.
Proof.
  intros Hl Hq Hdo Hra fuel. unfold Single.on_Synchronize.
  apply (for_of_runs_on Single.synchronizeSubscribers
           (Single.notify_if_present behave e)
           (λ i s,
              (∃ j, (i ≤ j)%nat
                    ∧ Single.synchronizeSubscribers s !! j = Some (Some n))
              ∧ ∀ m, Some m ∈ Single.synchronizeSubscribers s →
                     m = n ∨ Single.quiet (behave m) = true)).
  - intros i s [(j & Hij & Hj) Hall].
    assert (Hlt : (i < length (Single.synchronizeSubscribers s))%nat).
    { apply lookup_lt_Some in Hj. lia. }
    destruct (lookup_lt_is_Some_2 _ _ Hlt) as [slot Hslot].
    exists slot. destruct slot as [m|].
    + destruct (decide (m = n)) as [->|Hne].
      * eexists. split; [exact Hslot|]. split.
        { cbn. unfold Single.invoke, Single.finish. by rewrite Hdo, Hra. }
        cbn. split.
        -- exists (length (Single.synchronizeSubscribers s)).
           split; [lia|]. by rewrite lookup_app_r, Nat.sub_diag.
        -- intros m Hm. apply elem_of_app in Hm as [Hm|Hm]; [by apply Hall|].
           apply list_elem_of_singleton in Hm. left. congruence.
      * destruct (Hall m (list_elem_of_lookup_2 _ _ _ Hslot)) as [->|Hquiet];
          [done|].
        destruct (Single_invoke_quiet behave e (Some m)
                    (Single.synchronizeSubscribers s) s)
          as (s' & Hrun & Hsubs & _); [by intros ? [= <-] | done |].
        exists s'. split; [exact Hslot|]. split; [exact Hrun|].
        rewrite Hsubs. split; [|exact Hall].
        exists j. split; [|exact Hj].
        destruct (decide (i = j)) as [->|]; [congruence|lia].
    + exists s. split; [exact Hslot|]. split; [done|].
      split; [|exact Hall]. exists j. split; [|exact Hj].
      destruct (decide (i = j)) as [->|]; [congruence|lia].
  - split.
    + exists (length pre). split; [lia|].
      rewrite Hl. by apply list_lookup_middle.
    + intros m Hm. rewrite Hl in Hm.
      apply elem_of_app in Hm as [Hm|Hm].
      * apply Hq. apply elem_of_app. by left.
      * apply elem_of_cons in Hm as [[= ->]|Hm]; [by left|].
        apply Hq. apply elem_of_app. by right.
Qed.

Lemma resubscribing_subscriber_never_lets_the_pass_end_witness :
  Single.synchronizeSubscribers single_three
  = [] ++ (Some 1%nat :: [Some 2; Some 3]%nat)
  ∧ Single.on_Synchronize single_first_resubscribes 1000 scenario_broadcast
      single_three = None.
Proof.
  split; [reflexivity|].
  apply (resubscribing_subscriber_never_lets_the_pass_end
           single_first_resubscribes scenario_broadcast single_three
           [] [Some 2; Some 3]%nat 1%nat eq_refl).
  - intros m _. destruct (Nat.eqb m 1) eqn:Hm.
    + left. by apply Nat.eqb_eq.
    + right. unfold single_first_resubscribes. by rewrite Hm.
  - reflexivity.
  - reflexivity.
Defined.

(** X11.  A subscriber registered by a callback while a "Synchronize" pass
    of the single-channel client is running is called in that same pass,
    after all the subscribers that were already registered.  (All the
    subscribers but the registering one are taken to return normally and
    not to touch the subscriptions.) *)
Theorem subscriber_added_in_pass_is_called_in_it
    (behave : callback → Single.behaviour) (e : payload)
    (c : Single.SledgeClient) (fuel : nat)
    (pre post : list (option callback)) (a n : callback) :
  Single.synchronizeSubscribers c = pre ++ Some a :: post →
  (∀ m, Some m ∈ pre ++ post → Single.quiet (behave m) = true) →
  Single.quiet (behave n) = true →
  Single.does (behave a) = [Single.CallSubscribe n] →
  Single.raises (behave a) = None →
  (S (length (Single.synchronizeSubscribers c)) < fuel)%nat →
  ∃ c', Single.on_Synchronize behave fuel e c = Some (c', JS.Returned)
        ∧ Single.calls c' = Single.calls c ++
            ((λ m, (m, e)) <$> omap id pre) ++ [(a, e)] ++
            ((λ m, (m, e)) <$> omap id post) ++ [(n, e)]
        ∧ Single.synchronizeSubscribers c'
          = Single.synchronizeSubscribers c ++ [Some n].
Proof.
  intros Hl Hq Hn Hdo Hra Hfuel. unfold Single.on_Synchronize.
  set (l0 := pre ++ Some a :: post) in *.
  set (l1 := l0 ++ [Some n]).
  assert (Hlen : length l0 = (length pre + S (length post))%nat).
  { unfold l0. rewrite length_app. cbn. lia. }
  rewrite Hl, Hlen in Hfuel.
  destruct (for_of_advance Single.synchronizeSubscribers
              (Single.notify_if_present behave e) Single.calls
              (Single_entry e) (λ s, Single.synchronizeSubscribers s = l0)
              l0 (λ s H, H) pre) with (done := @nil (option callback))
              (rest := Some a :: post)
              (fuel := (fuel - length pre)%nat) (s := c)
    as (s1 & Hs1 & Hlog1 & Heq).
  { intros slot s Hin Hs. apply Single_invoke_quiet; [|done].
    intros m ->. apply Hq. apply elem_of_app. by left. }
  { done. }
  { done. }
  change (length (@nil (option callback))) with 0%nat in Heq.
  rewrite Nat.add_0_l in Heq.
  replace (length pre + (fuel - length pre))%nat with fuel in Heq by lia.
  rewrite Heq. clear Heq.
  destruct (fuel - length pre)%nat as [|fuel'] eqn:Hf; [lia|].
  cbn [JS.for_of]. rewrite Hs1. unfold l0 at 1.
  rewrite list_lookup_middle by done.
  cbn [Single.notify_if_present]. unfold Single.invoke, Single.finish.
  rewrite Hra, Hdo.
  cbn [fold_left Single.perform Single.subscribeSynchronize fst].
  assert (Hdrop : drop (S (length pre)) l1 = post ++ [Some n]).
  { unfold l1, l0.
    replace ((pre ++ Some a :: post) ++ [Some n])
      with ((pre ++ [Some a]) ++ post ++ [Some n])
      by (by rewrite <- !app_assoc).
    apply drop_app_length'. rewrite length_app. cbn. lia. }
  destruct (for_of_returns_from Single.synchronizeSubscribers
              (Single.notify_if_present behave e) Single.calls
              (Single_entry e) (λ s, Single.synchronizeSubscribers s = l1)
              l1 (λ s H, H)) with (fuel := fuel') (i := S (length pre))
              (s := Single.with_subscribers
                      (Single.synchronizeSubscribers s1 ++ [Some n])
                      {| Single.core := Single.core s1;
                         Single.synchronizeSubscribers :=
                           Single.synchronizeSubscribers s1;
                         Single.calls := Single.calls s1 ++ [(a, e)] |})
    as (c' & Hrun & Hsubs & Hcalls).
  { intros slot s Hin Hs. apply Single_invoke_quiet; [|done].
    intros m ->. rewrite Hdrop in Hin.
    apply elem_of_app in Hin as [Hin|Hin].
    - apply Hq. apply elem_of_app. by right.
    - apply list_elem_of_singleton in Hin. by injection Hin as ->. }
  { cbn. by rewrite Hs1. }
  { unfold l1. rewrite length_app, Hlen. cbn. lia. }
  exists c'. split; [exact Hrun|]. split; [|by rewrite Hsubs, Hl].
  rewrite Hcalls, Hdrop. cbn [Single.calls Single.with_subscribers].
  rewrite Hlog1, !Single_join_entries, omap_app. cbn.
  rewrite fmap_app. cbn. by rewrite <- !app_assoc.
Qed.

Lemma subscriber_added_in_pass_is_called_in_it_witness :
  Single.synchronizeSubscribers single_three
  = [] ++ (Some 1%nat :: [Some 2; Some 3]%nat)
  ∧ ∃ c', Single.on_Synchronize single_first_adds_fourth 10
            scenario_broadcast single_three = Some (c', JS.Returned)
          ∧ Single.calls c' = [(1%nat, scenario_broadcast);
                               (2%nat, scenario_broadcast);
                               (3%nat, scenario_broadcast);
                               (4%nat, scenario_broadcast)].
Proof.
  split; [reflexivity|].
  destruct (subscriber_added_in_pass_is_called_in_it
              single_first_adds_fourth scenario_broadcast single_three 10
              [] [Some 2; Some 3]%nat 1%nat 4%nat eq_refl)
    as (c' & Hrun & Hcalls & _).
  - intros m Hm. cbn in Hm.
    apply elem_of_cons in Hm as [[= ->]|Hm]; [reflexivity|].
    apply list_elem_of_singleton in Hm. by injection Hm as ->.
  - reflexivity.
  - reflexivity.
  - reflexivity.
  - cbn. lia.
  - exists c'. split; [exact Hrun|]. exact Hcalls.
Defined.

(** ** Registering one callback twice *)

Lemma Dual_subscribeStatus_appends (notify : callback)
    (c : Dual.SledgeClient) :
  (Dual.statusSubscribers c < length (Dual.arrays c))%nat →
  Dual.status_subscribers (fst (Dual.subscribeStatus notify c))
  = Dual.status_subscribers c ++ [notify].
Proof.
  intros Hvalid. unfold Dual.status_subscribers, Dual.array_at. cbn.
  rewrite list_lookup_alter_eq.
  destruct (Dual.arrays c !! Dual.statusSubscribers c) as [l|] eqn:Hl;
    [done|].
  apply lookup_ge_None_1 in Hl. lia.
Qed.

(** X12.  The two clients unsubscribe differently when a callback is
    registered twice.  In the single-channel client each closure empties
    its own slot, so calling the first one leaves the second registration
    in place.  In the two-channel client the closure of a status
    subscription filters the callback out by identity, so one call removes
    both registrations (and the callback is in no case left in the
    list). *)
Theorem unsubscribing_a_callback_registered_twice (notify : callback) :
  (∀ c,
     let r1 := Single.subscribeSynchronize notify c in
     let r2 := Single.subscribeSynchronize notify (fst r1) in
     Single.synchronizeSubscribers (Single.call_unsubscribe (snd r1) (fst r2))
     = Single.synchronizeSubscribers c ++ [None; Some notify])
  ∧ (∀ c,
       (Dual.statusSubscribers c < length (Dual.arrays c))%nat →
       let r1 := Dual.subscribeStatus notify c in
       let r2 := Dual.subscribeStatus notify (fst r1) in
       Dual.status_subscribers (fst r2)
       = Dual.status_subscribers c ++ [notify; notify]
       ∧ Dual.status_subscribers
           (Dual.call_unsubscribe (Dual.FilterStatus notify) (fst r2))
         = filter (λ n, n ≠ notify) (Dual.status_subscribers c))
  ∧ (∀ c, notify ∉ Dual.status_subscribers
                     (Dual.call_unsubscribe (Dual.FilterStatus notify) c)).
Proof.
  split; [|split].
  - intros c. cbn.
    rewrite <- app_assoc. cbn. by rewrite insert_middle.
  - intros c Hvalid. cbv zeta.
    assert (Hv1 :
      (Dual.statusSubscribers (fst (Dual.subscribeStatus notify c))
       < length (Dual.arrays (fst (Dual.subscribeStatus notify c))))%nat).
    { cbn. by rewrite length_alter. }
    rewrite Dual_unsubscribe_filters.
    rewrite (Dual_subscribeStatus_appends notify _ Hv1).
    rewrite (Dual_subscribeStatus_appends notify _ Hvalid).
    split; [by rewrite <- app_assoc|].
    rewrite !filter_app.
    rewrite (filter_cons_False _ notify) by (intros H; by apply H).
    by rewrite filter_nil, !app_nil_r.
  - intros c. rewrite Dual_unsubscribe_filters.
    intros Hin. apply list_elem_of_filter in Hin as [Hne _]. by apply Hne.
Qed.

Lemma unsubscribing_a_callback_registered_twice_witness :
  (Dual.statusSubscribers Dual.new < length (Dual.arrays Dual.new))%nat
  ∧ Dual.status_subscribers
      (fst (Dual.subscribeStatus 7 (fst (Dual.subscribeStatus 7 Dual.new))))
    = [7; 7]%nat
  ∧ Dual.status_subscribers
      (Dual.call_unsubscribe (Dual.FilterStatus 7)
         (fst (Dual.subscribeStatus 7 (fst (Dual.subscribeStatus 7 Dual.new)))))
    = [].
Proof.
  assert (H : (Dual.statusSubscribers Dual.new
               < length (Dual.arrays Dual.new))%nat) by (cbn; lia).
  split; [exact H|].
  exact (proj1 (proj2 (unsubscribing_a_callback_registered_twice 7%nat))
           Dual.new H).
Defined.

(** ** The other statements of the persistence layer *)

(** X13.  Unlike [addHack], the two other insert methods hand [run] as
    many values as their statement has placeholders, for every argument:
    two for [addJudge], six for [addSueprlativePlacement].  The driver
    therefore passes the statement on, and what the method returns or
    throws is what the engine does with it.  The placement binds the judge
    and superlative ids twice, first for the sub-select that looks up an
    existing row, then for the row itself. *)
Theorem other_inserts_reach_the_engine
    (execute : string → list Persistence.sqlvalue → Persistence.Database →
               Persistence.Database * JS.completion)
    (db : Persistence.Database) :
  (∀ judge,
     Persistence.parameters (Persistence.prepare Persistence.addJudge_sql)
     = 2%nat
     ∧ Persistence.addJudge execute judge db
       = execute Persistence.addJudge_sql
           [Persistence.SqlText (Persistence.judge_name judge);
            Persistence.SqlText (Persistence.judge_email judge)] db)
  ∧ (∀ placement,
       Persistence.parameters
         (Persistence.prepare Persistence.addSueprlativePlacement_sql)
       = 6%nat
       ∧ Persistence.addSueprlativePlacement execute placement db
         = execute Persistence.addSueprlativePlacement_sql
             [Persistence.SqlInteger (Persistence.judgeId placement);
              Persistence.SqlInteger (Persistence.superlativeId placement);
              Persistence.SqlInteger (Persistence.judgeId placement);
              Persistence.SqlInteger (Persistence.superlativeId placement);
              Persistence.SqlInteger (Persistence.firstChoiceId placement);
              Persistence.SqlInteger (Persistence.secondChoiceId placement)]
             db).
Proof. split; intros; split; reflexivity. Qed.

(** ** The judging screen *)

Local Open Scope Z_scope.

Lemma JudgeApp_next_at (props : JudgeApp.Props) (s : JudgeApp.State) (i : nat) :
  JudgeApp.positions_agree props →
  JudgeApp.hackOrdering props !! i = Some (JudgeApp.currentHackId s) →
  JudgeApp.getNextHackId props s
  = match JudgeApp.hackOrdering props !! S i with
    | Some h => JudgeApp.Num h
    | None => JudgeApp.Null
    end.
Proof.
  intros Hagree Hi. unfold JudgeApp.getNextHackId.
  rewrite (Hagree _ _ Hi).
  destruct (JudgeApp.hackOrdering props !! S i) as [h|] eqn:Hnext.
  - apply lookup_lt_Some in Hnext as Hlt.
    destruct (Z.leb_spec (Z.of_nat (length (JudgeApp.hackOrdering props)))
                (Z.of_nat i + 1)); [lia|].
    unfold JudgeApp.array_get.
    destruct (Z.leb_spec 0 (Z.of_nat i + 1)); [|lia].
    replace (Z.to_nat (Z.of_nat i + 1)) with (S i) by lia.
    by rewrite Hnext.
  - apply lookup_ge_None_1 in Hnext.
    destruct (Z.leb_spec (Z.of_nat (length (JudgeApp.hackOrdering props)))
                (Z.of_nat i + 1)); [done|lia].
Qed.

Lemma JudgeApp_prev_at (props : JudgeApp.Props) (s : JudgeApp.State) (i : nat) :
  JudgeApp.positions_agree props →
  JudgeApp.hackOrdering props !! i = Some (JudgeApp.currentHackId s) →
  JudgeApp.getPrevHackId props s
  = match i with
    | O => JudgeApp.Null
    | S j =>
        match JudgeApp.hackOrdering props !! j with
        | Some h => JudgeApp.Num h
        | None => JudgeApp.Undefined
        end
    end.
Proof.
  intros Hagree Hi. unfold JudgeApp.getPrevHackId.
  rewrite (Hagree _ _ Hi). destruct i as [|j].
  - done.
  - destruct (Z.ltb_spec (Z.of_nat (S j) - 1) 0); [lia|].
    unfold JudgeApp.array_get.
    destruct (Z.leb_spec 0 (Z.of_nat (S j) - 1)); [|lia].
    by replace (Z.to_nat (Z.of_nat (S j) - 1)) with j by lia.
Qed.

(** X14.  Once a hack is selected (a non-negative identifier), new props
    never change the selection, whatever orderings they bring, even ones
    that no longer contain that hack; and no sequence of prop updates ever
    changes whether the list view is open. *)
Theorem selected_hack_survives_prop_updates
    (updates : list JudgeApp.Props) (s : JudgeApp.State) :
  JudgeApp.listViewActive
    (fold_left (λ t p, JudgeApp.componentWillReceiveProps p t) updates s)
  = JudgeApp.listViewActive s
  ∧ ((0 ≤ JudgeApp.currentHackId s)%Z →
     fold_left (λ t p, JudgeApp.componentWillReceiveProps p t) updates s = s).
Proof.
  split.
  - revert s. induction updates as [|p updates IH]; intros s; [done|].
    cbn [fold_left]. rewrite IH.
    unfold JudgeApp.componentWillReceiveProps, JudgeApp.updateStateFromProps.
    destruct (JudgeApp.currentHackId s <? 0); [|done].
    by destruct (JudgeApp.hackOrdering p).
  - intros Hsel. induction updates as [|p updates IH]; [done|].
    cbn [fold_left].
    unfold JudgeApp.componentWillReceiveProps at 2.
    unfold JudgeApp.updateStateFromProps.
    destruct (Z.ltb_spec (JudgeApp.currentHackId s) 0); [lia|]. exact IH.
Qed.

Lemma judge_props_agree : JudgeApp.positions_agree judge_props.
Proof.
  intros i h. do 3 (destruct i as [|i]; [intros [= <-]; reflexivity|]).
  discriminate.
Qed.

Lemma judge_props_nonzero_agree : JudgeApp.positions_agree judge_props_nonzero.
Proof.
  intros i h. do 3 (destruct i as [|i]; [intros [= <-]; reflexivity|]).
  discriminate.
Qed.

Lemma selected_hack_survives_prop_updates_witness :
  (0 ≤ JudgeApp.currentHackId (JudgeApp.constructor judge_props))
  ∧ fold_left (λ t p, JudgeApp.componentWillReceiveProps p t)
      [judge_props_nonzero;
       {| JudgeApp.hackOrdering := []; JudgeApp.hackPositions := ∅;
          JudgeApp.hacks := []; JudgeApp.myJudgeId := 3 |}]
      (JudgeApp.constructor judge_props)
    = {| JudgeApp.currentHackId := 5; JudgeApp.listViewActive := false |}.
Proof.
  assert (H : 0 ≤ JudgeApp.currentHackId (JudgeApp.constructor judge_props))
    by (cbn; lia).
  split; [exact H|].
  exact (proj2 (selected_hack_survives_prop_updates _ _) H).
Defined.

(** X15.  Moving on and back.  When [hackPositions] agrees with
    [hackOrdering] and neither the current hack nor the next one in the
    ordering has identifier 0, "next" selects the next hack of the ordering
    and leaves the list-view flag alone, and "previous" on the screen
    rendered after that returns to the state before. *)
Theorem next_then_previous_returns
    (props : JudgeApp.Props) (s : JudgeApp.State) (i : nat) (h' : Z) :
  JudgeApp.positions_agree props →
  JudgeApp.hackOrdering props !! i = Some (JudgeApp.currentHackId s) →
  JudgeApp.hackOrdering props !! S i = Some h' →
  JudgeApp.currentHackId s ≠ 0 → h' ≠ 0 →
  let s1 := JudgeApp.onNext (JudgeApp.getToolbarProps props s) s in
  s1 = JudgeApp.set_currentHackId h' s
  ∧ JudgeApp.onPrev (JudgeApp.getToolbarProps props s1) s1 = s.
Proof.
  intros Hagree Hi Hnext Hcur Hh'. cbv zeta.
  assert (Hs1 : JudgeApp.onNext (JudgeApp.getToolbarProps props s) s
                = JudgeApp.set_currentHackId h' s).
  { cbn. rewrite (JudgeApp_next_at props s i Hagree Hi), Hnext. cbn.
    destruct (Z.eqb_spec h' 0); [done|]. done. }
  rewrite Hs1. split; [done|]. cbn [JudgeApp.getToolbarProps JudgeApp.onPrev].
  rewrite (JudgeApp_prev_at props (JudgeApp.set_currentHackId h' s) (S i)
             Hagree Hnext), Hi.
  cbn. destruct (Z.eqb_spec (JudgeApp.currentHackId s) 0); [done|].
  by destruct s.
Qed.

Lemma next_then_previous_returns_witness :
  JudgeApp.positions_agree judge_props_nonzero
  ∧ JudgeApp.onPrev
      (JudgeApp.getToolbarProps judge_props_nonzero
         (JudgeApp.onNext
            (JudgeApp.getToolbarProps judge_props_nonzero
               (JudgeApp.constructor judge_props_nonzero))
            (JudgeApp.constructor judge_props_nonzero)))
      (JudgeApp.onNext
         (JudgeApp.getToolbarProps judge_props_nonzero
            (JudgeApp.constructor judge_props_nonzero))
         (JudgeApp.constructor judge_props_nonzero))
    = JudgeApp.constructor judge_props_nonzero.
Proof.
  split; [exact judge_props_nonzero_agree|].
  refine (proj2 (next_then_previous_returns judge_props_nonzero
            (JudgeApp.constructor judge_props_nonzero) 0%nat 7
            judge_props_nonzero_agree eq_refl eq_refl _ _)).
  - cbn. lia.
  - lia.
Defined.

(** X16.  A hack whose identifier is 0 cannot be reached with the toolbar.
    The handlers test the target identifier for truthiness, so when the
    next (or previous) hack of the ordering has identifier 0 the button
    does nothing, although the toolbar does not report the current hack as
    last (or first). *)
Theorem hack_zero_is_out_of_reach_of_the_toolbar
    (props : JudgeApp.Props) (s : JudgeApp.State) (i : nat) :
  JudgeApp.positions_agree props →
  JudgeApp.hackOrdering props !! i = Some (JudgeApp.currentHackId s) →
  (JudgeApp.hackOrdering props !! S i = Some 0 →
   JudgeApp.last (JudgeApp.getToolbarProps props s) = false
   ∧ JudgeApp.onNext (JudgeApp.getToolbarProps props s) s = s)
  ∧ (∀ j, i = S j → JudgeApp.hackOrdering props !! j = Some 0 →
     JudgeApp.first (JudgeApp.getToolbarProps props s) = false
     ∧ JudgeApp.onPrev (JudgeApp.getToolbarProps props s) s = s).
Proof.
  intros Hagree Hi. split.
  - intros Hnext. cbn. rewrite (Hagree _ _ Hi). split.
    + apply lookup_lt_Some in Hnext. apply Z.eqb_neq. lia.
    + fold (JudgeApp.getNextHackId props s).
      by rewrite (JudgeApp_next_at props s i Hagree Hi), Hnext.
  - intros j -> Hprev. cbn. rewrite (Hagree _ _ Hi). split.
    + apply Z.eqb_neq. lia.
    + fold (JudgeApp.getPrevHackId props s).
      by rewrite (JudgeApp_prev_at props s (S j) Hagree Hi), Hprev.
Qed.

Lemma hack_zero_is_out_of_reach_of_the_toolbar_witness :
  JudgeApp.positions_agree judge_props
  ∧ JudgeApp.last
      (JudgeApp.getToolbarProps judge_props (JudgeApp.constructor judge_props))
    = false
  ∧ JudgeApp.onNext
      (JudgeApp.getToolbarProps judge_props (JudgeApp.constructor judge_props))
      (JudgeApp.constructor judge_props)
    = JudgeApp.constructor judge_props.
Proof.
  split; [exact judge_props_agree|].
  exact (proj1 (hack_zero_is_out_of_reach_of_the_toolbar judge_props
                  (JudgeApp.constructor judge_props) 0%nat
                  judge_props_agree eq_refl) eq_refl).
Defined.

(** X17.  The toolbar's [first] and [last] flags agree with the handlers.
    When [hackPositions] agrees with [hackOrdering] and the current hack is
    at index [i] of the ordering, [first] holds exactly at index 0, which
    is exactly when there is no previous hack ([getPrevHackId] is [null]),
    and [last] holds exactly at the last index, which is exactly when
    [getNextHackId] is [null]; at those ends the button does nothing. *)
Theorem toolbar_flags_match_the_ends
    (props : JudgeApp.Props) (s : JudgeApp.State) (i : nat) :
  JudgeApp.positions_agree props →
  JudgeApp.hackOrdering props !! i = Some (JudgeApp.currentHackId s) →
  let tb := JudgeApp.getToolbarProps props s in
  (JudgeApp.first tb = true ↔ i = 0%nat)
  ∧ (JudgeApp.first tb = true ↔ JudgeApp.getPrevHackId props s = JudgeApp.Null)
  ∧ (JudgeApp.last tb = true
     ↔ S i = length (JudgeApp.hackOrdering props))
  ∧ (JudgeApp.last tb = true ↔ JudgeApp.getNextHackId props s = JudgeApp.Null)
  ∧ (JudgeApp.first tb = true → JudgeApp.onPrev tb s = s)
  ∧ (JudgeApp.last tb = true → JudgeApp.onNext tb s = s).
Proof.
  intros Hagree Hi. cbv zeta.
  pose proof (lookup_lt_Some _ _ _ Hi) as Hlt.
  assert (Hfirst : JudgeApp.first (JudgeApp.getToolbarProps props s) = true
                   ↔ i = 0%nat).
  { cbn. rewrite (Hagree _ _ Hi). rewrite Z.eqb_eq. lia. }
  assert (Hlast : JudgeApp.last (JudgeApp.getToolbarProps props s) = true
                  ↔ S i = length (JudgeApp.hackOrdering props)).
  { cbn. rewrite (Hagree _ _ Hi). rewrite Z.eqb_eq. lia. }
  assert (Hprev : JudgeApp.getPrevHackId props s = JudgeApp.Null ↔ i = 0%nat).
  { rewrite (JudgeApp_prev_at props s i Hagree Hi). destruct i as [|j].
    - done.
    - destruct (lookup_lt_is_Some_2 (JudgeApp.hackOrdering props) j) as [h Hh];
        [lia|]. rewrite Hh. split; [discriminate|lia]. }
  assert (Hnext : JudgeApp.getNextHackId props s = JudgeApp.Null
                  ↔ S i = length (JudgeApp.hackOrdering props)).
  { rewrite (JudgeApp_next_at props s i Hagree Hi).
    destruct (JudgeApp.hackOrdering props !! S i) as [h|] eqn:Hn.
    - apply lookup_lt_Some in Hn. split; [discriminate|lia].
    - apply lookup_ge_None_1 in Hn. split; [lia|done]. }
  split; [exact Hfirst|]. split; [by rewrite Hfirst, Hprev|].
  split; [exact Hlast|]. split; [by rewrite Hlast, Hnext|]. split.
  - intros Hf. apply Hfirst, Hprev in Hf.
    change (JudgeApp.go_to (JudgeApp.getPrevHackId props s) s = s).
    by rewrite Hf.
  - intros Hl. apply Hlast, Hnext in Hl.
    change (JudgeApp.go_to (JudgeApp.getNextHackId props s) s = s).
    by rewrite Hl.
Qed.

Lemma toolbar_flags_match_the_ends_witness :
  JudgeApp.positions_agree judge_props
  ∧ JudgeApp.first
      (JudgeApp.getToolbarProps judge_props (JudgeApp.constructor judge_props))
    = true
  ∧ JudgeApp.getPrevHackId judge_props (JudgeApp.constructor judge_props)
    = JudgeApp.Null.
Proof.
  split; [exact judge_props_agree|].
  destruct (toolbar_flags_match_the_ends judge_props
              (JudgeApp.constructor judge_props) 0%nat judge_props_agree
              eq_refl) as (H1 & H2 & _).
  assert (Hf : JudgeApp.first
                 (JudgeApp.getToolbarProps judge_props
                    (JudgeApp.constructor judge_props)) = true)
    by (apply H1; reflexivity).
  split; [exact Hf|]. apply H2. exact Hf.
Defined.

(** X18.  With no hacks at all the screen is inert.  The constructor
    selects identifier -1; as long as [hackPositions] has no entry for -1,
    the placeholder project is shown, both neighbours are [undefined],
    neither flag is set and neither button changes the state; and props
    that later bring a non-empty ordering select its first hack. *)
Theorem screen_without_hacks
    (props : JudgeApp.Props) :
  JudgeApp.hackOrdering props = [] →
  JudgeApp.hackPositions props !! (-1) = None →
  let s := JudgeApp.constructor props in
  let tb := JudgeApp.getToolbarProps props s in
  s = {| JudgeApp.currentHackId := -1; JudgeApp.listViewActive := false |}
  ∧ JudgeApp.getCurrentHack props s = Some JudgeApp.no_hack
  ∧ JudgeApp.getPrevHackId props s = JudgeApp.Undefined
  ∧ JudgeApp.getNextHackId props s = JudgeApp.Undefined
  ∧ JudgeApp.first tb = false ∧ JudgeApp.last tb = false
  ∧ JudgeApp.onPrev tb s = s ∧ JudgeApp.onNext tb s = s
  ∧ (∀ next h rest,
       JudgeApp.hackOrdering next = h :: rest →
       JudgeApp.componentWillReceiveProps next s
       = {| JudgeApp.currentHackId := h; JudgeApp.listViewActive := false |}).
Proof.
  intros Hempty Hpos. cbv zeta.
  assert (Hs : JudgeApp.constructor props
               = {| JudgeApp.currentHackId := -1;
                    JudgeApp.listViewActive := false |}).
  { unfold JudgeApp.constructor, JudgeApp.updateStateFromProps.
    by rewrite Hempty. }
  rewrite Hs. split; [done|]. split; [done|].
  unfold JudgeApp.getToolbarProps, JudgeApp.getPrevHackId,
    JudgeApp.getNextHackId.
  cbn [JudgeApp.currentHackId JudgeApp.first JudgeApp.last JudgeApp.onPrev
       JudgeApp.onNext].
  rewrite Hpos. repeat (split; [done|]).
  intros next h rest Hnext.
  unfold JudgeApp.componentWillReceiveProps, JudgeApp.updateStateFromProps.
  cbn. by rewrite Hnext.
Qed.

Lemma screen_without_hacks_witness :
  JudgeApp.hackOrdering
    {| JudgeApp.hackOrdering := []; JudgeApp.hackPositions := ∅;
       JudgeApp.hacks := []; JudgeApp.myJudgeId := 3 |} = []
  ∧ JudgeApp.getCurrentHack
      {| JudgeApp.hackOrdering := []; JudgeApp.hackPositions := ∅;
         JudgeApp.hacks := []; JudgeApp.myJudgeId := 3 |}
      (JudgeApp.constructor
         {| JudgeApp.hackOrdering := []; JudgeApp.hackPositions := ∅;
            JudgeApp.hacks := []; JudgeApp.myJudgeId := 3 |})
    = Some JudgeApp.no_hack.
Proof.
  split; [reflexivity|].
  exact (proj1 (proj2 (screen_without_hacks
           {| JudgeApp.hackOrdering := []; JudgeApp.hackPositions := ∅;
              JudgeApp.hacks := []; JudgeApp.myJudgeId := 3 |}
           eq_refl eq_refl))).
Defined.

(** X19.  The project list shows one element per hack, in the order of
    [hacks], named after the hack; clicking an element selects that hack's
    identifier, whatever it is (0 included, unlike the toolbar buttons),
    and closes the list view. *)
Theorem project_list_selects_the_clicked_hack (props : JudgeApp.Props) :
  length (JudgeApp.render_list props) = length (JudgeApp.hacks props)
  ∧ ∀ k hack,
      JudgeApp.hacks props !! k = Some hack →
      ∃ item,
        JudgeApp.render_list props !! k = Some item
        ∧ JudgeApp.projectName item = JudgeApp.name hack
        ∧ ∀ s, JudgeApp.updateHackId item s
               = {| JudgeApp.currentHackId := JudgeApp.id hack;
                    JudgeApp.listViewActive := false |}.
Proof.
  split; [apply length_fmap|].
  intros k hack Hk. exists (JudgeApp.createListItem hack).
  unfold JudgeApp.render_list. rewrite list_lookup_fmap, Hk. by repeat split.
Qed.

Lemma project_list_selects_the_clicked_hack_witness :
  let zero := {| JudgeApp.id := 0; JudgeApp.name := "sledge";
                 JudgeApp.description := "judging";
                 JudgeApp.location := VNum 4 |} in
  let props := {| JudgeApp.hackOrdering := [0]; JudgeApp.hackPositions := ∅;
                  JudgeApp.hacks := [zero]; JudgeApp.myJudgeId := 3 |} in
  JudgeApp.hacks props !! 0%nat = Some zero
  ∧ ∃ item,
      JudgeApp.render_list props !! 0%nat = Some item
      ∧ JudgeApp.projectName item = "sledge".
Proof.
  cbv zeta. split; [reflexivity|].
  destruct (proj2 (project_list_selects_the_clicked_hack
              {| JudgeApp.hackOrdering := [0]; JudgeApp.hackPositions := ∅;
                 JudgeApp.hacks :=
                   [{| JudgeApp.id := 0; JudgeApp.name := "sledge";
                       JudgeApp.description := "judging";
                       JudgeApp.location := VNum 4 |}];
                 JudgeApp.myJudgeId := 3 |}) 0%nat _ eq_refl)
    as (item & Hitem & Hname & _).
  exists item. split; [exact Hitem|exact Hname].
Defined.

(** X20.  Submitting a rating sends one "RateHack" request carrying the
    judge's identifier, the identifier of the hack on screen and the
    rating, registers a pending entry for it and returns its promise,
    pending.  Nothing checks the hack: with no hacks found the request is
    sent all the same, for hack identifier -1. *)
Theorem rating_submission_sends_RateHack
    (props : JudgeApp.Props) (s : JudgeApp.State) (r now : Z) (rnd : Q)
    (sledge : Single.SledgeClient) :
  let token := Single.generateUniqueReturnId now rnd in
  let p := length (promises (Single.core sledge)) in
  let sent := JudgeApp.submit_rating props s r now rnd sledge in
  snd sent = p
  ∧ trace (Single.core (fst sent)) = trace (Single.core sledge) ++
      [Generated token;
       Emitted "RateHack"
         {| env_data := [("judgeId", VNum (JudgeApp.myJudgeId props));
                         ("hackId", VNum (JudgeApp.currentHackId s));
                         ("rating", VNum r)];
            env_returnId := token |};
       Registered token p]
  ∧ responseResolvers (Single.core (fst sent)) !! token = Some p
  ∧ promises (Single.core (fst sent)) !! p = Some Pending
  ∧ (JudgeApp.hackOrdering props = [] →
     ∃ tr, trace (Single.core
                    (fst (JudgeApp.submit_rating props
                            (JudgeApp.constructor props) r now rnd sledge)))
           = tr ++
             [Emitted "RateHack"
                {| env_data := [("judgeId", VNum (JudgeApp.myJudgeId props));
                                ("hackId", VNum (-1));
                                ("rating", VNum r)];
                   env_returnId := token |};
              Registered token p]).
Proof.
  cbv zeta. unfold JudgeApp.submit_rating, Single.sendRateHack,
    Single.sendAndAwait.
  rewrite !sendAndAwait_effects. cbn [fst snd Single.core Single.with_core
    trace responseResolvers promises].
  split; [done|]. split; [done|].
  split; [apply lookup_insert_eq|].
  split; [by rewrite lookup_app_r, Nat.sub_diag|].
  intros Hempty.
  exists (trace (Single.core sledge)
          ++ [Generated (Single.generateUniqueReturnId now rnd)]).
  rewrite <- app_assoc. cbn.
  unfold JudgeApp.rating_request, JudgeApp.constructor,
    JudgeApp.updateStateFromProps.
  by rewrite Hempty.
Qed.

Lemma rating_submission_sends_RateHack_witness :
  let none := {| JudgeApp.hackOrdering := []; JudgeApp.hackPositions := ∅;
                 JudgeApp.hacks := []; JudgeApp.myJudgeId := 3 |} in
  JudgeApp.hackOrdering none = []
  ∧ ∃ tr, trace (Single.core
                   (fst (JudgeApp.submit_rating none
                           (JudgeApp.constructor none) 15 scenario_now
                           scenario_rnd Single.new)))
          = tr ++
            [Emitted "RateHack"
               {| env_data := [("judgeId", VNum 3); ("hackId", VNum (-1));
                               ("rating", VNum 15)];
                  env_returnId :=
                    Single.generateUniqueReturnId scenario_now scenario_rnd |};
             Registered
               (Single.generateUniqueReturnId scenario_now scenario_rnd)
               0%nat].
Proof.
  cbv zeta. split; [reflexivity|].
  exact (proj2 (proj2 (proj2 (proj2
           (rating_submission_sends_RateHack
              {| JudgeApp.hackOrdering := []; JudgeApp.hackPositions := ∅;
                 JudgeApp.hacks := []; JudgeApp.myJudgeId := 3 |}
              (JudgeApp.constructor
                 {| JudgeApp.hackOrdering := []; JudgeApp.hackPositions := ∅;
                    JudgeApp.hacks := []; JudgeApp.myJudgeId := 3 |})
              15 scenario_now scenario_rnd Single.new)))) eq_refl).
Defined.

(** ** Subscribing, unsubscribing, then an event *)

(** X21.  A callback that was subscribed and whose unsubscribe closure was
    then called is not called by the next event.  In the single-channel
    client the "Synchronize" pass calls exactly the subscribers that were
    registered before, in order.  In the two-channel client the status
    pass calls the earlier status subscribers except every earlier
    registration of that same callback, which the closure removed as well.
    (The remaining subscribers are taken to return normally and not to
    touch the subscriptions.) *)
Theorem unsubscribed_callback_is_not_called
    (notify : callback) (e : payload) (fuel : nat) :
  (∀ behave c,
     (∀ n, Some n ∈ Single.synchronizeSubscribers c →
        Single.quiet (behave n) = true) →
     (S (length (Single.synchronizeSubscribers c)) < fuel)%nat →
     let sub := Single.subscribeSynchronize notify c in
     let c2 := Single.call_unsubscribe (snd sub) (fst sub) in
     ∃ c', Single.on_Synchronize behave fuel e c2 = Some (c', JS.Returned)
           ∧ Single.calls c' = Single.calls c ++
               ((λ n, (n, e)) <$> omap id (Single.synchronizeSubscribers c)))
  ∧ (∀ hex behave c,
       (Dual.statusSubscribers c < length (Dual.arrays c))%nat →
       (∀ n, n ∈ Dual.status_subscribers c → n ≠ notify →
          Dual.quiet (behave n) = true) →
       (length (Dual.status_subscribers c) < fuel)%nat →
       let c2 := Dual.call_unsubscribe (Dual.FilterStatus notify)
                   (fst (Dual.subscribeStatus notify c)) in
       ∃ c', Dual.on_connect hex behave fuel c2 = Some (c', JS.Returned)
             ∧ Dual.calls c' = Dual.calls c ++
                 ((λ d, Dual.StatusCall d Dual.Connected) <$>
                    filter (λ n, n ≠ notify) (Dual.status_subscribers c))).
Proof.
  split.
  - intros behave c Hq Hfuel. cbv zeta.
    assert (Hsubs : Single.synchronizeSubscribers
                      (Single.call_unsubscribe
                         (snd (Single.subscribeSynchronize notify c))
                         (fst (Single.subscribeSynchronize notify c)))
                    = Single.synchronizeSubscribers c ++ [None]).
    { cbn. by rewrite insert_app_r_alt, Nat.sub_diag. }
    destruct (Single_fanout_quiet behave e
                (Single.call_unsubscribe
                   (snd (Single.subscribeSynchronize notify c))
                   (fst (Single.subscribeSynchronize notify c))) fuel)
      as (c' & Hrun & Hcalls & _).
    + rewrite Hsubs. intros n Hn. apply elem_of_app in Hn as [Hn|Hn].
      * by apply Hq.
      * apply list_elem_of_singleton in Hn. discriminate.
    + rewrite Hsubs, length_app. cbn. lia.
    + exists c'. split; [exact Hrun|]. rewrite Hcalls, Hsubs, omap_app.
      cbn. by rewrite app_nil_r.
  - intros hex behave c Hvalid Hq Hfuel. cbv zeta.
    set (c2 := Dual.call_unsubscribe (Dual.FilterStatus notify)
                 (fst (Dual.subscribeStatus notify c))).
    assert (Hsubs : Dual.status_subscribers c2
                    = filter (λ n, n ≠ notify) (Dual.status_subscribers c)).
    { unfold c2. rewrite Dual_unsubscribe_filters.
      rewrite (Dual_subscribeStatus_appends notify c Hvalid).
      rewrite filter_app.
      rewrite (filter_cons_False _ notify) by (intros H; by apply H).
      by rewrite filter_nil, app_nil_r. }
    destruct (Dual_dispatchStatus_quiet hex behave
                (Dual.with_status Dual.Connected c2) fuel)
      as (c' & k & Hrun & ->).
    + change (Dual.status_subscribers (Dual.with_status Dual.Connected c2))
        with (Dual.status_subscribers c2).
      rewrite Hsubs. intros n Hn.
      apply list_elem_of_filter in Hn as [Hne Hn]. by apply Hq.
    + change (Dual.status_subscribers (Dual.with_status Dual.Connected c2))
        with (Dual.status_subscribers c2).
      rewrite Hsubs. pose proof (length_filter (λ n, n ≠ notify)
                                   (Dual.status_subscribers c)). lia.
    + eexists. split; [exact Hrun|].
      change (Dual.status_subscribers (Dual.with_status Dual.Connected c2))
        with (Dual.status_subscribers c2).
      by rewrite Hsubs.
Qed.

Lemma unsubscribed_callback_is_not_called_witness :
  (∀ n, Some n ∈ Single.synchronizeSubscribers single_three →
     Single.quiet (single_polite n) = true)
  ∧ (S (length (Single.synchronizeSubscribers single_three)) < 10)%nat
  ∧ ∃ c', Single.on_Synchronize single_polite 10 scenario_broadcast
            (Single.call_unsubscribe
               (snd (Single.subscribeSynchronize 8 single_three))
               (fst (Single.subscribeSynchronize 8 single_three)))
          = Some (c', JS.Returned)
          ∧ Single.calls c' = [(1%nat, scenario_broadcast);
                               (2%nat, scenario_broadcast);
                               (3%nat, scenario_broadcast)].
Proof.
  assert (Hq : ∀ n, Some n ∈ Single.synchronizeSubscribers single_three →
                 Single.quiet (single_polite n) = true).
  { intros n _. unfold single_polite. by destruct (Nat.eqb n 2). }
  assert (Hfuel :
    (S (length (Single.synchronizeSubscribers single_three)) < 10)%nat)
    by (cbn; lia).
  split; [exact Hq|]. split; [exact Hfuel|].
  exact (proj1 (unsubscribed_callback_is_not_called 8%nat scenario_broadcast
                  10%nat) single_polite single_three Hq Hfuel).
Defined.

Lemma send_then_response_round_trip_witness :
  responseResolvers new_core
    !! Single.generateUniqueReturnId scenario_now scenario_rnd = None
  ∧ responseResolvers
      (fst (on_response scenario_response
              (fst (sendAndAwait Single.generateUniqueReturnId scenario_now
                      scenario_rnd "RateHack" scenario_request new_core))))
    = responseResolvers new_core.
Proof.
  split; [reflexivity|].
  exact (proj2 (proj2 (proj2 (proj2
           (send_then_response_round_trip Single.generateUniqueReturnId
              scenario_now scenario_rnd "RateHack" scenario_request
              [("success", VBool true)] new_core)))) eq_refl).
Defined.
